(** * Thank U DK tracker: the derivations of [src/islands/App.tsx]

    The component loads a static list of podcast episodes and derives, on
    every render, a filtered list, a band -> count object, a sorted list of
    its entries, two percentages and a few superlatives.  The file holds two
    revisions of the component; what they share ([bandCounts],
    [totalCountableEpisodes], [sortedBands], [knownBandsPercentage] and the
    whole of [StatsPage]) is modelled once, what differs ([filteredEpisodes],
    the band groups and the list that is rendered) once per revision. *)

From Stdlib Require Import String Ascii List Bool Arith ZArith NArith QArith Lia.
From Stdlib Require Import Permutation Sorted OrderedTypeEx.
Import ListNotations.

Open Scope string_scope.
Open Scope list_scope.
Open Scope nat_scope.

(** ** The JavaScript built-ins the component uses *)

Module Js.

(** *** Strings.  A string is a sequence of code units; the model keeps the
    code units below 256, the characters of Latin-1. *)

(** [String.prototype.toLowerCase] on such strings: the letters [A]-[Z] and
    the accented capitals from U+00C0 to U+00DE, the sign U+00D7 apart, are
    mapped to the letter 32 places further; every other code unit below 256
    is left as it is, and no rule that looks at the neighbours applies. *)
Definition lowerUnit (c : ascii) : ascii :=
  let n := nat_of_ascii c in
  if ((65 <=? n) && (n <=? 90))
     || ((192 <=? n) && (n <=? 222) && negb (n =? 215))
  then ascii_of_nat (n + 32) else c.

Fixpoint toLowerCase (s : string) : string :=
  match s with
  | EmptyString => EmptyString
  | String c s' => String (lowerUnit c) (toLowerCase s')
  end.

(** [s.includes(sub)]: [sub] occurs in [s] as a substring. *)
Fixpoint includes (s sub : string) : bool :=
  String.prefix sub s ||
  match s with
  | EmptyString => false
  | String _ s' => includes s' sub
  end.

(** A string used as a condition is truthy when it is not empty. *)
Definition truthy (s : string) : bool := negb (s =? "")%string.

(** *** Numbers.  The quotients the component computes are quotients of two
    array lengths: the model keeps the exact rational, and the two
    non-finite results a zero divisor gives.  The double the engine computes
    is that rational rounded to nearest; rounding is monotone and keeps 0
    and 100, so a bound by 0 and 100 on the rational bounds the double. *)
Inductive Number : Type :=
| NaN
| Infinity
| Finite (q : Q).

(** [a / b] for two lengths. *)
Definition div (a b : nat) : Number :=
  match b, a with
  | O, O => NaN
  | O, S _ => Infinity
  | S _, _ => Finite (Z.of_nat a # Pos.of_nat b)
  end.

(** [x * 100]. *)
Definition times100 (x : Number) : Number :=
  match x with
  | NaN => NaN
  | Infinity => Infinity
  | Finite q => Finite (q * 100)
  end.

(** *** The outcome of an expression that may throw. *)
Inductive Outcome (A : Type) : Type :=
| Returned (a : A)
| TypeError.
Arguments Returned {A} a.
Arguments TypeError {A}.

Definition bind {A B : Type} (m : Outcome A) (k : A -> Outcome B) : Outcome B :=
  match m with
  | Returned a => k a
  | TypeError => TypeError
  end.

Fixpoint mapM {A B : Type} (f : A -> Outcome B) (l : list A) : Outcome (list B) :=
  match l with
  | [] => Returned []
  | x :: l' => bind (f x) (fun y => bind (mapM f l') (fun ys => Returned (y :: ys)))
  end.

(** *** Arrays *)

(** [a[i]]: [undefined] (here [None]) outside of the array. *)
Definition at_ {A : Type} (a : list A) (i : Z) : option A :=
  if (i <? 0)%Z then None else nth_error a (Z.to_nat i).

(** [a.findIndex(p)]: the first index whose element satisfies [p], or -1. *)
Fixpoint findIndex {A : Type} (p : A -> bool) (a : list A) : Z :=
  match a with
  | [] => (-1)%Z
  | x :: a' =>
      if p x then 0%Z
      else let r := findIndex p a' in
           if (r <? 0)%Z then (-1)%Z else (r + 1)%Z
  end.

(** Objects have an identity: an array of objects is a list of addresses
    with the value stored at each.  An array parsed from a JSON document
    holds a fresh object in every slot; [allocate] gives slot [i] the
    address [i]. *)
Definition Ref (A : Type) : Type := (nat * A)%type.

Definition allocate {A : Type} (l : list A) : list (Ref A) :=
  combine (seq 0 (length l)) l.

Definition deref {A : Type} (r : Ref A) : A := snd r.

(** [a.indexOf(o)] compares with [===], which on objects is identity. *)
Definition indexOf {A : Type} (o : Ref A) (a : list (Ref A)) : Z :=
  findIndex (fun o' => fst o' =? fst o) a.

(** *** [a.sort(comparator)].

    A comparator returns a number, [None] standing for NaN.  The standard
    fixes the order of the result when the comparator is consistent on the
    elements of the array: it never returns NaN on them, every element
    compares equal to itself, being equal is symmetric and transitive, and
    so are being less and being greater.  The sort is then the stable one:
    the result of the insertion sort below, in which an element goes in
    front of the first element of the sorted rest it does not compare
    greater than.  Otherwise the order is the engine's own choice, and only
    the elements are known. *)
Section Sort.
Context {A : Type}.

Fixpoint insert (cmp : A -> A -> Z) (x : A) (l : list A) : list A :=
  match l with
  | [] => [x]
  | y :: l' => if (cmp x y <=? 0)%Z then x :: l else y :: insert cmp x l'
  end.

Definition stableSort (cmp : A -> A -> Z) (l : list A) : list A :=
  fold_right (insert cmp) [] l.

Variable comparator : A -> A -> option Z.

Definition isNumber (x y : A) : bool :=
  match comparator x y with Some _ => true | None => false end.

Definition isEqual (x y : A) : bool :=
  match comparator x y with Some v => (v =? 0)%Z | None => false end.

Definition isLess (x y : A) : bool :=
  match comparator x y with Some v => (v <? 0)%Z | None => false end.

Definition isGreater (x y : A) : bool :=
  match comparator x y with Some v => (0 <? v)%Z | None => false end.

Definition consistentOn (l : list A) : bool :=
  forallb (fun a => forallb (fun b => forallb (fun c =>
    isNumber a b
    && isEqual a a
    && implb (isEqual a b) (isEqual b a)
    && implb (isEqual a b && isEqual b c) (isEqual a c)
    && implb (isLess a b && isLess b c) (isLess a c)
    && implb (isGreater a b && isGreater b c) (isGreater a c)) l) l) l.

(** The value the sort reads from the comparator: NaN counts as 0. *)
Definition sortCompare (x y : A) : Z :=
  match comparator x y with Some v => v | None => 0%Z end.

End Sort.

(** The sorted array: its elements in the order the standard fixes, or in
    an order of the engine's choice. *)
Inductive Arranged (A : Type) : Type :=
| InOrder (l : list A)
| InSomeOrder (l : list A).
Arguments InOrder {A} l.
Arguments InSomeOrder {A} l.

(** An array of at most one element has one order. *)
Definition sort {A : Type} (comparator : A -> A -> option Z) (l : list A)
  : Arranged A :=
  if (length l <=? 1) || consistentOn comparator l
  then InOrder (stableSort (sortCompare comparator) l)
  else InSomeOrder l.

(** The elements of a sorted array, for what does not depend on their
    order: its length, the number of its elements that pass a test. *)
Definition items {A : Type} (s : Arranged A) : list A :=
  match s with
  | InOrder l => l
  | InSomeOrder l => l
  end.

(** A value read at an index of a sorted array: the element there, or an
    element of the engine's choice. *)
Inductive Chosen (A : Type) : Type :=
| Exactly (a : A)
| ByEngine.
Arguments Exactly {A} a.
Arguments ByEngine {A}.

(** [s[i]] *)
Definition index {A : Type} (s : Arranged A) (i : Z) : Chosen (option A) :=
  match s with
  | InOrder l => Exactly (at_ l i)
  | InSomeOrder _ => ByEngine
  end.

(** [s.map(f)] *)
Definition mapArranged {A B : Type} (f : A -> B) (s : Arranged A) : Arranged B :=
  match s with
  | InOrder l => InOrder (map f l)
  | InSomeOrder l => InSomeOrder (map f l)
  end.

(** [s.map(f)] where [f] may throw: it throws when [f] throws on an
    element, whatever the order. *)
Definition mapMArranged {A B : Type} (f : A -> Outcome B) (s : Arranged A)
  : Outcome (Arranged B) :=
  match s with
  | InOrder l => bind (mapM f l) (fun r => Returned (InOrder r))
  | InSomeOrder l => bind (mapM f l) (fun r => Returned (InSomeOrder r))
  end.

(** *** Objects used as string-keyed maps.

    An object literal [{}] has its own properties and, behind them, the
    members of [Object.prototype].  The own properties are kept as a list in
    the order [Object.keys] and [Object.entries] list them (the order of
    OrdinaryOwnPropertyKeys): the keys that are array indices first, in
    ascending numeric order, then the other keys in the order they were
    created. *)
Definition Object (V : Type) : Type := list (string * V).

Definition digit (c : ascii) : option N :=
  let n := N_of_ascii c in
  if ((48 <=? n) && (n <=? 57))%N then Some (n - 48)%N else None.

Fixpoint digits (s : string) (acc : N) : option N :=
  match s with
  | EmptyString => Some acc
  | String c s' =>
      match digit c with
      | Some d => digits s' (10 * acc + d)%N
      | None => None
      end
  end.

(** A key is an array index when it is the canonical decimal form of an
    integer below 2^32 - 1. *)
Definition arrayIndex (k : string) : option N :=
  match k with
  | EmptyString => None
  | String c s' =>
      if (c =? "0")%char then (if (s' =? "")%string then Some 0%N else None)
      else match digits k 0 with
           | Some n => if (n <? 4294967295)%N then Some n else None
           | None => None
           end
  end.

(** The names of the members of [Object.prototype]: eleven functions, and
    the accessor [__proto__], whose getter returns the prototype of the
    object and whose setter changes it. *)
Definition prototypeMembers : list string :=
  ["constructor"; "__defineGetter__"; "__defineSetter__"; "hasOwnProperty";
   "__lookupGetter__"; "__lookupSetter__"; "isPrototypeOf";
   "propertyIsEnumerable"; "toString"; "valueOf"; "__proto__";
   "toLocaleString"].

Definition inherited (k : string) : bool :=
  existsb (String.eqb k) prototypeMembers.

(** What reading [o[k]] finds. *)
Inductive Lookup (V : Type) : Type :=
| Undefined
| Own (v : V)
| Inherited (member : string).
Arguments Undefined {V}.
Arguments Own {V} v.
Arguments Inherited {V} member.

Section Object.
Context {V : Type}.

Definition empty : Object V := [].

(** The own property under [k]. *)
Fixpoint getOwn (k : string) (o : Object V) : option V :=
  match o with
  | [] => None
  | (k', v) :: o' => if (k' =? k)%string then Some v else getOwn k o'
  end.

(** [o[k]] *)
Definition get (k : string) (o : Object V) : Lookup V :=
  match getOwn k o with
  | Some v => Own v
  | None => if inherited k then Inherited k else Undefined
  end.

Fixpoint replace (k : string) (v : V) (o : Object V) : Object V :=
  match o with
  | [] => []
  | (k', v') :: o' =>
      if (k' =? k)%string then (k', v) :: o' else (k', v') :: replace k v o'
  end.

Fixpoint insertIndex (n : N) (k : string) (v : V) (o : Object V) : Object V :=
  match o with
  | [] => [(k, v)]
  | (k', v') :: o' =>
      match arrayIndex k' with
      | Some m =>
          if (m <? n)%N then (k', v') :: insertIndex n k v o'
          else (k, v) :: o
      | None => (k, v) :: o
      end
  end.

(** Writing the own property [k]: an existing property keeps its place, a
    new one takes the place its key gives it. *)
Definition define (k : string) (v : V) (o : Object V) : Object V :=
  match getOwn k o with
  | Some _ => replace k v o
  | None =>
      match arrayIndex k with
      | Some n => insertIndex n k v o
      | None => o ++ [(k, v)]
      end
  end.

(** [o[k] = v].  Under [__proto__] the assignment goes to the inherited
    setter, which leaves the object as it is when [v] is a primitive or the
    prototype the object has already: the component assigns nothing else
    there.  Under every other key it writes the own property, the members
    of [Object.prototype] being writable. *)
Definition set (k : string) (v : V) (o : Object V) : Object V :=
  if (k =? "__proto__")%string then o else define k v o.

Definition keys (o : Object V) : list string := map fst o.
Definition entries (o : Object V) : list (string * V) := o.
End Object.

(** *** The values of the count objects: a number, or, under the name of an
    inherited member, the string that member converts to (the source text
    of a native function, or [[object Object]] for the prototype) followed
    by a number of characters [1]. *)
Inductive Value : Type :=
| Num (n : nat)
| Text (member : string) (ones : nat).

(** [(x || 0) + 1]: [undefined] and 0 are falsy and give 1; a function, an
    object and a string that is not empty are truthy, and adding 1 to them
    appends the character [1] to their string. *)
Definition increment (x : Lookup Value) : Value :=
  match x with
  | Undefined => Num 1
  | Own (Num n) => Num (n + 1)
  | Own (Text member ones) => Text member (ones + 1)
  | Inherited member => Text member 1
  end.

(** [x - y]: the strings of [Text] begin with the text of a member, which
    is no number, so a difference with one of them is NaN. *)
Definition minus (x y : Value) : option Z :=
  match x, y with
  | Num a, Num b => Some (Z.of_nat a - Z.of_nat b)%Z
  | _, _ => None
  end.

(** [x === 1] *)
Definition isOne (x : Value) : bool :=
  match x with
  | Num 1 => true
  | _ => false
  end.

End Js.

(** ** The data model *)

Record Episode : Type := {
  id : string;
  title : string;
  published : string;
  band : string
}.

Inductive SortBy : Type := by_band | by_count | by_date.

(** A few more conversions the component relies on. *)
Module JsConv.

(** [x[i]] throws a [TypeError] when [x] is [undefined]. *)
Definition defined {A : Type} (x : option A) : Js.Outcome A :=
  match x with
  | Some a => Js.Returned a
  | None => Js.TypeError
  end.

(** [a.forEach(f)] where [f] updates a state and may throw. *)
Fixpoint forEach {A S : Type} (f : S -> A -> Js.Outcome S) (a : list A) (s : S)
  : Js.Outcome S :=
  match a with
  | [] => Js.Returned s
  | x :: a' => Js.bind (f s x) (forEach f a')
  end.

End JsConv.

(** ** [StatsPage] *)

Module StatsPage.

(** The accumulator of [episodes.reduce] at lines 14-19. *)
Definition bandMentions (episodes : list Episode) : Js.Object Js.Value :=
  fold_left
    (fun acc episode =>
       if Js.truthy (band episode)
          && negb (Js.includes (band episode) "<")
          && negb (Js.includes (band episode) ">")
       then Js.set (band episode)
                   (Js.increment (Js.get (band episode) acc)) acc
       else acc)
    episodes Js.empty.

(** [Object.entries(bandMentions).sort((a, b) => b[1] - a[1])] *)
Definition sortedBands (episodes : list Episode)
  : Js.Arranged (string * Js.Value) :=
  Js.sort (fun a b => Js.minus (snd b) (snd a))
          (Js.entries (bandMentions episodes)).

Record Stats : Type := {
  mostMentionedBand : Js.Chosen (option (string * Js.Value));
  leastMentionedBand : Js.Chosen (option (string * Js.Value));
  newBandPercentage : Js.Number;
  lastMentionedBand : option Episode
}.

(** The value of the [useMemo] at lines 13-36. *)
Definition stats (episodes : list Episode) : Stats :=
  let sortedBands := sortedBands episodes in
  let newBandCount :=
    length (filter (fun '(_, count) => Js.isOne count) (Js.items sortedBands)) in
  {| mostMentionedBand := Js.index sortedBands 0;
     leastMentionedBand :=
       Js.index sortedBands (Z.of_nat (length (Js.items sortedBands)) - 1);
     newBandPercentage :=
       Js.times100 (Js.div newBandCount (length (Js.items sortedBands)));
     lastMentionedBand :=
       find (fun episode =>
               Js.truthy (band episode)
               && negb (Js.includes (band episode) "<")
               && negb (Js.includes (band episode) ">"))
            episodes |}.

(** What the four list items of lines 43-46 show. *)
Record View : Type := {
  mostLine : Js.Chosen (string * Js.Value);
  leastLine : Js.Chosen (string * Js.Value);
  newBandLine : Js.Number;
  lastLine : option string * string
}.

(** [x[0]] and [x[1]] for a superlative [x]: a [TypeError] when [x] is
    [undefined].  An element of the engine's choice is an element: the
    engine has a choice among two entries at least. *)
Definition superlative (x : Js.Chosen (option (string * Js.Value)))
  : Js.Outcome (Js.Chosen (string * Js.Value)) :=
  match x with
  | Js.Exactly (Some entry) => Js.Returned (Js.Exactly entry)
  | Js.Exactly None => Js.TypeError
  | Js.ByEngine => Js.Returned Js.ByEngine
  end.

(** The markup of lines 38-50: the two superlatives are indexed as they
    are, the last mention goes through [?.] and [|| '']. *)
Definition render (episodes : list Episode) : Js.Outcome View :=
  let stats := stats episodes in
  Js.bind (superlative (mostMentionedBand stats)) (fun most =>
  Js.bind (superlative (leastMentionedBand stats)) (fun least =>
  Js.Returned
    {| mostLine := most;
       leastLine := least;
       newBandLine := newBandPercentage stats;
       lastLine :=
         (option_map band (lastMentionedBand stats),
          match lastMentionedBand stats with
          | Some episode => published episode
          | None => ""
          end) |})).

End StatsPage.

(** ** [App] *)

(** An entry of the list at the bottom of the tracker tab: an episode in
    date mode, otherwise a band with the value shown next to it and the
    episodes listed under it. *)
Inductive Item : Type :=
| EpisodeItem (episode : Episode)
| BandItem (name : string) (shown : Js.Value) (listed : list Episode).

Module App.

(** Lines 67-69. *)
Definition filteredEpisodes (episodes : list Episode) (searchTerm : string)
  : list Episode :=
  filter
    (fun episode =>
       Js.includes (Js.toLowerCase (band episode)) (Js.toLowerCase searchTerm))
    episodes.

(** Lines 71-77. *)
Definition bandCounts (episodes : list Episode) : Js.Object Js.Value :=
  fold_left
    (fun acc episode =>
       if negb (Js.truthy (band episode))
          || (band episode =? "")%string
          || Js.includes (band episode) "<"
          || Js.includes (band episode) ">"
       then acc
       else Js.set (band episode)
                   (Js.increment (Js.get (band episode) acc)) acc)
    episodes Js.empty.

(** Lines 79-81. *)
Definition totalCountableEpisodes (episodes : list Episode) : nat :=
  length
    (filter
       (fun episode =>
          negb (Js.includes (band episode) "<"
                || Js.includes (band episode) ">"))
       episodes).

(** Lines 83-87; [localeCompare] is the collation of the host. *)
Definition sortedBands (localeCompare : string -> string -> Z)
    (sortBy : SortBy) (episodes : list Episode)
  : Js.Arranged (string * Js.Value) :=
  Js.sort
    (fun a b =>
       match sortBy with
       | by_count => Js.minus (snd b) (snd a)
       | by_date => Some 0%Z
       | by_band => Some (localeCompare (fst a) (fst b))
       end)
    (Js.entries (bandCounts episodes)).

(** Line 89. *)
Definition knownBandsPercentage (episodes : list Episode) : Js.Number :=
  Js.times100
    (Js.div (length (Js.keys (bandCounts episodes)))
            (totalCountableEpisodes episodes)).

(** Lines 162-211: the list rendered in the first revision; next to a band
    it shows [episodes.length]. *)
Definition rendered (localeCompare : string -> string -> Z)
    (sortBy : SortBy) (episodes : list Episode) (searchTerm : string)
  : Js.Arranged Item :=
  match sortBy with
  | by_date => Js.InOrder (map EpisodeItem (filteredEpisodes episodes searchTerm))
  | _ =>
      Js.mapArranged
        (fun '(band, count) =>
           BandItem band (Js.Num (length episodes))
                    (filteredEpisodes episodes searchTerm))
        (sortedBands localeCompare sortBy episodes)
  end.

End App.

(** The second revision: what it changes. *)
Module Revised.

(** Lines 339-344: the search filter, then the removal of the episodes
    whose id occurs earlier in [episodes]. *)
Definition filteredEpisodes (episodes : list Episode) (searchTerm : string)
  : list Episode :=
  let episodes := Js.allocate episodes in
  map Js.deref
    (filter
       (fun episode =>
          (Js.findIndex
             (fun e => (id (Js.deref e) =? id (Js.deref episode))%string)
             episodes
           =? Js.indexOf episode episodes)%Z)
       (filter
          (fun episode =>
             Js.includes (Js.toLowerCase (band (Js.deref episode)))
                         (Js.toLowerCase searchTerm))
          episodes)).

(** [groups[k] = groups[k] || []; groups[k].push(episode)].  When [k] names
    an inherited member, [groups[k] || []] is that member, a function or the
    prototype object, which has no [push]: the call throws. *)
Definition push (k : string) (episode : Episode)
    (groups : Js.Object (list Episode)) : Js.Outcome (Js.Object (list Episode)) :=
  match Js.get k groups with
  | Js.Own bucket =>
      Js.Returned (Js.set k (bucket ++ [episode]) (Js.set k bucket groups))
  | Js.Undefined =>
      Js.Returned (Js.set k ([] ++ [episode]) (Js.set k [] groups))
  | Js.Inherited _ => Js.TypeError
  end.

(** Lines 378-387: the groups the effect builds. *)
Definition groupByBand (filteredEpisodes : list Episode)
  : Js.Outcome (Js.Object (list Episode)) :=
  JsConv.forEach
    (fun groups episode =>
       if negb (Js.truthy (band episode))
          || (band episode =? "")%string
          || Js.includes (band episode) "<"
          || Js.includes (band episode) ">"
       then push "Unknown" episode groups
       else push (band episode) episode groups)
    filteredEpisodes Js.empty.

(** The state [bandGroups] once the effect has run on the current
    [filteredEpisodes]: the groups it stores at line 388, or, when it throws
    before, the [{}] the state starts with (line 328). *)
Definition bandGroups (filteredEpisodes : list Episode)
  : Js.Object (list Episode) :=
  match groupByBand filteredEpisodes with
  | Js.Returned groups => groups
  | Js.TypeError => Js.empty
  end.

(** [bandGroups[band].map(...)]: a [TypeError] when [bandGroups[band]] is
    [undefined], and when it is an inherited member, which has no [map]. *)
Definition listed (band : string) (bandGroups : Js.Object (list Episode))
  : Js.Outcome (list Episode) :=
  match Js.get band bandGroups with
  | Js.Own episodes => Js.Returned episodes
  | Js.Undefined => Js.TypeError
  | Js.Inherited _ => Js.TypeError
  end.

(** Lines 454-496. *)
Definition rendered (localeCompare : string -> string -> Z)
    (sortBy : SortBy) (episodes : list Episode) (searchTerm : string)
  : Js.Outcome (Js.Arranged Item) :=
  let filteredEpisodes := filteredEpisodes episodes searchTerm in
  match sortBy with
  | by_date => Js.Returned (Js.InOrder (map EpisodeItem filteredEpisodes))
  | _ =>
      Js.mapMArranged
        (fun '(band, count) =>
           Js.bind (listed band (bandGroups filteredEpisodes)) (fun episodes =>
           Js.Returned (BandItem band count episodes)))
        (App.sortedBands localeCompare sortBy episodes)
  end.

End Revised.

(** The effect that loads the data, in both revisions. *)
Module Load.

(** [new Date(b.published).getTime() - new Date(a.published).getTime()]:
    [getTime] is the host's reading of a date string, in milliseconds, with
    [None] for the NaN of a string that is no date; a difference with NaN
    is NaN. *)
Definition byDate (getTime : string -> option Z) (a b : Episode) : option Z :=
  match getTime (published b), getTime (published a) with
  | Some tb, Some ta => Some (tb - ta)%Z
  | _, _ => None
  end.

(** Lines 61-63: [[...DATA].sort(...)], the list the effect stores in
    [episodes]. *)
Definition sortedEpisodes (getTime : string -> option Z) (DATA : list Episode)
  : Js.Arranged Episode :=
  Js.sort (byDate getTime) DATA.

End Load.

(** ** The notions the properties are stated with *)

(** A band value is known when it is not empty and holds neither [<] nor
    [>]. *)
Definition known (b : string) : bool :=
  negb (b =? "")%string && negb (Js.includes b "<") && negb (Js.includes b ">").

Definition knownEpisodes (episodes : list Episode) : list Episode :=
  filter (fun e => known (band e)) episodes.

(** One step of the reduction that counts the mentions, with the test of a
    known band written as [known]. *)
Definition count1 (acc : Js.Object Js.Value) (e : Episode) : Js.Object Js.Value :=
  if known (band e)
  then Js.set (band e) (Js.increment (Js.get (band e) acc)) acc
  else acc.

(** The number of known-band episodes that name [b]. *)
Definition mentions (b : string) (episodes : list Episode) : nat :=
  length (filter (fun e => (band e =? b)%string) (knownEpisodes episodes)).

(** The members of a list of names, each once, in the order they are first
    met. *)
Fixpoint distinct (l : list string) : list string :=
  match l with
  | [] => []
  | x :: l' => x :: filter (fun y => negb (y =? x)%string) (distinct l')
  end.

Definition knownBands (episodes : list Episode) : list string :=
  distinct (map band (knownEpisodes episodes)).

(** The known bands the count object has a key for: all but a band named
    [__proto__]. *)
Definition keyed (b : string) : bool := negb (b =? "__proto__")%string.

Definition keyedBands (episodes : list Episode) : list string :=
  filter keyed (knownBands episodes).

(** No known band of the list has the name of a member of
    [Object.prototype]. *)
Definition plainNames (episodes : list Episode) : bool :=
  forallb (fun e => negb (known (band e) && Js.inherited (band e))) episodes.

(** What the count object holds for a band after [n] mentions, and what it
    holds [n] mentions after it held [v]. *)
Definition held (b : string) (n : nat) : Js.Value :=
  if Js.inherited b then Js.Text b n else Js.Num n.

Definition later (v : Js.Value) (n : nat) : Js.Value :=
  match v with
  | Js.Num m => Js.Num (m + n)
  | Js.Text member ones => Js.Text member (ones + n)
  end.

(** The count a value stands for: the number it is, 0 for a string. *)
Definition count (v : Js.Value) : nat :=
  match v with
  | Js.Num n => n
  | Js.Text _ _ => 0
  end.

(** The count found under a key: 0 when nothing of the object's own is
    there. *)
Definition countUnder (x : Js.Lookup Js.Value) : nat :=
  match x with
  | Js.Own v => count v
  | _ => 0
  end.

(** The episodes whose band holds no marker: the divisor of the known-bands
    percentage. *)
Definition countable (e : Episode) : bool :=
  negb (Js.includes (band e) "<") && negb (Js.includes (band e) ">").

(** A percentage that is a number between 0 and 100. *)
Definition percentage (x : Js.Number) : Prop :=
  match x with
  | Js.Finite q => (0 <= q /\ q <= 100)%Q
  | _ => False
  end.

(** Equality of numbers, up to the representation of the rational. *)
Definition sameNumber (x y : Js.Number) : Prop :=
  match x, y with
  | Js.NaN, Js.NaN => True
  | Js.Infinity, Js.Infinity => True
  | Js.Finite p, Js.Finite q => (p == q)%Q
  | _, _ => False
  end.

(** [x] is the first entry of [l] whose count is the greatest of [l]. *)
Definition firstGreatest (x : string * Js.Value) (l : list (string * Js.Value))
  : Prop :=
  exists l1 l2,
    l = l1 ++ x :: l2
    /\ Forall (fun y => count (snd y) < count (snd x)) l1
    /\ Forall (fun y => count (snd y) <= count (snd x)) l2.

(** [x] is the last entry of [l] whose count is the least of [l]. *)
Definition lastLeast (x : string * Js.Value) (l : list (string * Js.Value))
  : Prop :=
  exists l1 l2,
    l = l1 ++ x :: l2
    /\ Forall (fun y => count (snd x) <= count (snd y)) l1
    /\ Forall (fun y => count (snd x) < count (snd y)) l2.

(** A name that is an array index. *)
Definition isIndex (b : string) : bool :=
  match Js.arrayIndex b with
  | Some _ => true
  | None => false
  end.

(** The order of the keys of an object: a key that is an array index is
    before a key that is none, and two keys that are array indices are in
    the order of their numbers. *)
Definition keyBefore (a b : string) : Prop :=
  match Js.arrayIndex a, Js.arrayIndex b with
  | Some m, Some n => (m <= n)%N
  | Some _, None => True
  | None, Some _ => False
  | None, None => True
  end.

(** The search predicate of [filteredEpisodes]. *)
Definition matches (searchTerm : string) (e : Episode) : bool :=
  Js.includes (Js.toLowerCase (band e)) (Js.toLowerCase searchTerm).

(** The episodes [p] holds of, less those whose id was met before, [seen]
    being the ids met so far. *)
Fixpoint firstOfEachId (seen : list string) (p : Episode -> bool)
    (l : list Episode) : list Episode :=
  match l with
  | [] => []
  | e :: l' =>
      let rest := firstOfEachId (seen ++ [id e]) p l' in
      if p e && negb (existsb (fun i => (i =? id e)%string) seen)
      then e :: rest else rest
  end.

(** [l] is [l'] with some elements left out. *)
Inductive Subsequence {A : Type} : list A -> list A -> Prop :=
| Subsequence_nil : Subsequence [] []
| Subsequence_skip x l l' : Subsequence l l' -> Subsequence l (x :: l')
| Subsequence_keep x l l' : Subsequence l l' -> Subsequence (x :: l) (x :: l').

(** The bucket read under a name of the groups, empty when the groups have
    none there: [groups[k] || []] for a name no member of
    [Object.prototype] has. *)
Definition orEmpty {A : Type} (x : option (list A)) : list A :=
  match x with Some b => b | None => [] end.

(** The name of the bucket [groupByBand] puts an episode in. *)
Definition bucketOf (e : Episode) : string :=
  if known (band e) then band e else "Unknown".

Definition bucket (k : string) (l : list Episode) : list Episode :=
  filter (fun e => (bucketOf e =? k)%string) l.

(** Comparison of the code units, as a comparator: the lexicographic
    order. *)
Definition codeUnitCompare (a b : string) : Z :=
  match String.compare a b with
  | Lt => (-1)%Z
  | Eq => 0%Z
  | Gt => 1%Z
  end.


(** A consistent comparator, in the words of the standard. *)
Definition Consistent {A : Type} (cmp : A -> A -> Z) : Prop :=
  (forall a, cmp a a = 0%Z)
  /\ (forall a b, cmp a b = 0%Z -> cmp b a = 0%Z)
  /\ (forall a b c, cmp a b = 0%Z -> cmp b c = 0%Z -> cmp a c = 0%Z)
  /\ (forall a b c, (cmp a b < 0)%Z -> (cmp b c < 0)%Z -> (cmp a c < 0)%Z)
  /\ (forall a b c, (0 < cmp a b)%Z -> (0 < cmp b c)%Z -> (0 < cmp a c)%Z).

(** The comparison of two entries by their counts, the greater first. *)
Definition byCount (a b : string * Js.Value) : Z :=
  (Z.of_nat (count (snd b)) - Z.of_nat (count (snd a)))%Z.

(** The order a comparator puts two elements in: [x] may stand before [y]. *)
Definition inOrder {A : Type} (cmp : A -> A -> Z) (x y : A) : Prop :=
  (cmp x y <= 0)%Z.



(** The time of an episode, 0 when its date does not parse. *)
Definition timeOf (getTime : string -> option Z) (e : Episode) : Z :=
  match getTime (published e) with
  | Some t => t
  | None => 0%Z
  end.

(** [a] is not older than [b]. *)
Definition notOlder (getTime : string -> option Z) (a b : Episode) : Prop :=
  (timeOf getTime b <= timeOf getTime a)%Z.

(** A reading of dates for the examples: the day of the month of a date
    written [yyyy-mm-dd], when it is a digit in the last place. *)
Definition dayOf (s : string) : option Z :=
  match String.get 9 s with
  | Some c => option_map Z.of_N (Js.digit c)
  | None => None
  end.

(** What the second revision shows for a band: its count, and the episodes
    of the filtered list under its name. *)
Definition bandItem (filtered : list Episode) (entry : string * Js.Value) : Item :=
  BandItem (fst entry) (snd entry) (bucket (fst entry) filtered).

(** Episodes for the examples. *)
Definition ep (i b : string) : Episode :=
  {| id := i; title := "Episode " ++ i; published := "2023-01-0" ++ i; band := b |}.

(** * Properties *)

(** ** Objects *)

Section ObjectFacts.
Context {V : Type}.
Implicit Types (o : Js.Object V) (k : string) (v : V).

Lemma getOwn_None_keys k o : Js.getOwn k o = None <-> ~ In k (Js.keys o).
Proof.
  induction o as [|[k' v'] o IH]; simpl.
  - tauto.
  - destruct (String.eqb_spec k' k) as [->|Hne].
    + split; [discriminate | tauto].
    + rewrite IH. tauto.
Qed.

Lemma getOwn_Some_In k v o : Js.getOwn k o = Some v -> In (k, v) o.
Proof.
  induction o as [|[k' v'] o IH]; simpl; [discriminate|].
  destruct (String.eqb_spec k' k) as [->|Hne].
  - intros [= ->]. now left.
  - intros H. right. now apply IH.
Qed.

Lemma In_getOwn k v o : NoDup (Js.keys o) -> In (k, v) o -> Js.getOwn k o = Some v.
Proof.
  induction o as [|[k' v'] o IH]; simpl; [tauto|].
  intros Hnd [[= -> ->]|Hin].
  - now rewrite String.eqb_refl.
  - inversion Hnd as [|? ? Hnotin Hnd']; subst.
    destruct (String.eqb_spec k' k) as [->|Hne].
    + exfalso. apply Hnotin. change k with (fst (k, v)). now apply in_map.
    + now apply IH.
Qed.

Lemma keys_replace k v o : Js.keys (Js.replace k v o) = Js.keys o.
Proof.
  induction o as [|[k' v'] o IH]; simpl; [reflexivity|].
  destruct (k' =? k)%string; simpl; [reflexivity | now rewrite IH].
Qed.

Lemma getOwn_replace k k' v o :
  Js.getOwn k' (Js.replace k v o) =
  if (k =? k')%string then option_map (fun _ => v) (Js.getOwn k o) else Js.getOwn k' o.
Proof.
  induction o as [|[k0 v0] o IH]; simpl.
  - now destruct (k =? k')%string.
  - destruct (String.eqb_spec k0 k) as [->|Hne]; simpl.
    + destruct (String.eqb_spec k k') as [->|Hne']; reflexivity.
    + rewrite IH.
      destruct (String.eqb_spec k0 k') as [->|Hne'].
      * destruct (String.eqb_spec k k') as [->|]; [congruence | reflexivity].
      * reflexivity.
Qed.

Lemma insertIndex_split n k v o :
  exists o1 o2, o = o1 ++ o2 /\ Js.insertIndex n k v o = o1 ++ (k, v) :: o2.
Proof.
  induction o as [|[k' v'] o (o1 & o2 & Ho & Hi)]; simpl.
  - now exists [], [].
  - destruct (Js.arrayIndex k') as [m|].
    + destruct (m <? n)%N.
      * exists ((k', v') :: o1), o2. simpl. now rewrite Hi, Ho at 1.
      * now exists [], ((k', v') :: o).
    + now exists [], ((k', v') :: o).
Qed.

(** A new property is put somewhere among the others, which keep their
    order. *)
Lemma define_new k v o :
  Js.getOwn k o = None ->
  exists o1 o2, o = o1 ++ o2 /\ Js.define k v o = o1 ++ (k, v) :: o2.
Proof.
  intros Hk. unfold Js.define. rewrite Hk.
  destruct (Js.arrayIndex k) as [n|].
  - apply insertIndex_split.
  - exists o, []. now rewrite app_nil_r.
Qed.

(** A new property whose key is not an array index goes last. *)
Lemma define_new_last k v o :
  Js.getOwn k o = None -> Js.arrayIndex k = None -> Js.define k v o = o ++ [(k, v)].
Proof. intros Hk Hi. unfold Js.define. now rewrite Hk, Hi. Qed.

Lemma define_old k v v0 o :
  Js.getOwn k o = Some v0 -> Js.define k v o = Js.replace k v o.
Proof. intros Hk. unfold Js.define. now rewrite Hk. Qed.

Lemma getOwn_app k o1 o2 :
  Js.getOwn k (o1 ++ o2) =
  match Js.getOwn k o1 with Some v => Some v | None => Js.getOwn k o2 end.
Proof.
  induction o1 as [|[k' v'] o1 IH]; simpl; [reflexivity|].
  now destruct (k' =? k)%string.
Qed.

Lemma getOwn_define k k' v o :
  Js.getOwn k' (Js.define k v o) = if (k =? k')%string then Some v else Js.getOwn k' o.
Proof.
  destruct (Js.getOwn k o) as [v0|] eqn:Hk.
  - rewrite (define_old _ _ _ _ Hk), getOwn_replace, Hk. reflexivity.
  - destruct (define_new k v o Hk) as (o1 & o2 & Ho & ->).
    subst o. rewrite getOwn_app in Hk |- *.
    destruct (Js.getOwn k o1) eqn:H1; [discriminate|].
    simpl. destruct (String.eqb_spec k k') as [->|Hne].
    + now rewrite H1.
    + rewrite getOwn_app. reflexivity.
Qed.

Lemma keys_app o1 o2 : Js.keys (o1 ++ o2) = Js.keys o1 ++ Js.keys o2.
Proof. apply map_app. Qed.

Lemma NoDup_keys_define k v o : NoDup (Js.keys o) -> NoDup (Js.keys (Js.define k v o)).
Proof.
  intros Hnd. destruct (Js.getOwn k o) as [v0|] eqn:Hk.
  - now rewrite (define_old _ _ _ _ Hk), keys_replace.
  - destruct (define_new k v o Hk) as (o1 & o2 & Ho & ->).
    apply getOwn_None_keys in Hk. subst o.
    rewrite keys_app in *. simpl.
    apply NoDup_Add with (a := k) (l := Js.keys o1 ++ Js.keys o2).
    + apply Add_app.
    + now constructor.
Qed.

Lemma keys_define_old k v v0 o :
  Js.getOwn k o = Some v0 -> Js.keys (Js.define k v o) = Js.keys o.
Proof. intros Hk. now rewrite (define_old _ _ _ _ Hk), keys_replace. Qed.

End ObjectFacts.

(** Reading and writing through the prototype. *)
Section PrototypeFacts.
Context {V : Type}.
Implicit Types (o : Js.Object V) (k : string) (v : V).

Lemma inherited_proto : Js.inherited "__proto__" = true.
Proof. reflexivity. Qed.

Lemma keyed_plain k : Js.inherited k = false -> keyed k = true.
Proof.
  unfold keyed. destruct (String.eqb_spec k "__proto__") as [->|]; [|reflexivity].
  discriminate.
Qed.

Lemma getOwn_set k k' v o :
  Js.getOwn k' (Js.set k v o) =
  if keyed k && (k =? k')%string then Some v else Js.getOwn k' o.
Proof.
  unfold Js.set, keyed. destruct (k =? "__proto__")%string; [reflexivity|].
  apply getOwn_define.
Qed.

Lemma NoDup_keys_set k v o : NoDup (Js.keys o) -> NoDup (Js.keys (Js.set k v o)).
Proof.
  unfold Js.set. destruct (k =? "__proto__")%string; [auto|].
  apply NoDup_keys_define.
Qed.

Lemma get_Own k v o : Js.get k o = Js.Own v <-> Js.getOwn k o = Some v.
Proof.
  unfold Js.get. destruct (Js.getOwn k o).
  - split; intros [= ->]; reflexivity.
  - destruct (Js.inherited k); split; discriminate.
Qed.

Lemma get_plain k o :
  Js.inherited k = false ->
  Js.get k o = match Js.getOwn k o with Some v => Js.Own v | None => Js.Undefined end.
Proof. intros H. unfold Js.get. now rewrite H. Qed.

End PrototypeFacts.

(** ** Counting the mentions *)

(** The two ways the component writes the test of a known band. *)
Lemma known_guard b :
  Js.truthy b && negb (Js.includes b "<") && negb (Js.includes b ">") = known b.
Proof. reflexivity. Qed.

Lemma unknown_guard b :
  negb (Js.truthy b) || (b =? "")%string || Js.includes b "<" || Js.includes b ">"
  = negb (known b).
Proof.
  unfold known, Js.truthy.
  destruct (b =? "")%string, (Js.includes b "<"), (Js.includes b ">"); reflexivity.
Qed.

Lemma fold_left_pointwise {A B : Type} (f g : A -> B -> A) l a :
  (forall x y, f x y = g x y) -> fold_left f l a = fold_left g l a.
Proof.
  intros H. revert a. induction l as [|y l IH]; intros a; simpl; [reflexivity|].
  now rewrite H, IH.
Qed.

Lemma bandCounts_fold episodes :
  App.bandCounts episodes = fold_left count1 episodes Js.empty.
Proof.
  apply fold_left_pointwise. intros acc e. unfold count1.
  rewrite unknown_guard. now destruct (known (band e)).
Qed.

Lemma bandMentions_fold episodes :
  StatsPage.bandMentions episodes = fold_left count1 episodes Js.empty.
Proof.
  apply fold_left_pointwise. intros acc e. unfold count1.
  now rewrite known_guard.
Qed.

Lemma bandMentions_bandCounts episodes :
  StatsPage.bandMentions episodes = App.bandCounts episodes.
Proof. now rewrite bandMentions_fold, bandCounts_fold. Qed.

Lemma mentions_cons b e l :
  mentions b (e :: l) =
  (if known (band e) && (band e =? b)%string then 1 else 0) + mentions b l.
Proof.
  unfold mentions, knownEpisodes. simpl.
  destruct (known (band e)); simpl; [|reflexivity].
  now destruct (band e =? b)%string.
Qed.

Lemma later_0 v : later v 0 = v.
Proof. destruct v; simpl; f_equal; lia. Qed.

Lemma later_increment v n :
  later (Js.increment (Js.Own v)) n = later v (1 + n).
Proof. destruct v; simpl; f_equal; lia. Qed.

Lemma later_held b n : later (held b 1) n = held b (1 + n).
Proof. unfold held. now destruct (Js.inherited b). Qed.

Lemma increment_fresh b (acc : Js.Object Js.Value) :
  Js.getOwn b acc = None -> Js.increment (Js.get b acc) = held b 1.
Proof.
  intros H. unfold Js.get, held. rewrite H. now destruct (Js.inherited b).
Qed.

Lemma getOwn_proto_count1 acc e :
  Js.getOwn "__proto__" acc = None -> Js.getOwn "__proto__" (count1 acc e) = None.
Proof.
  intros H. unfold count1. destruct (known (band e)); [|exact H].
  rewrite getOwn_set. unfold keyed.
  destruct (String.eqb_spec (band e) "__proto__") as [->|Hne]; [exact H|].
  simpl. destruct (String.eqb_spec (band e) "__proto__"); [contradiction | exact H].
Qed.

(** What the reduction leaves under each key. *)
Lemma getOwn_fold_count1 l : forall acc k,
  Js.getOwn "__proto__" acc = None ->
  Js.getOwn k (fold_left count1 l acc) =
  match Js.getOwn k acc with
  | Some v => Some (later v (mentions k l))
  | None =>
      if keyed k && negb (mentions k l =? 0)
      then Some (held k (mentions k l)) else None
  end.
Proof.
  induction l as [|e l IH]; intros acc k Hp.
  - simpl. destruct (Js.getOwn k acc).
    + now rewrite later_0.
    + now rewrite andb_false_r.
  - simpl fold_left. rewrite IH by now apply getOwn_proto_count1.
    rewrite mentions_cons. unfold count1.
    destruct (known (band e)); cbn [andb]; [|reflexivity].
    rewrite getOwn_set.
    destruct (String.eqb_spec (band e) k) as [->|Hne].
    + destruct (keyed k) eqn:Hkey; cbn [andb].
      * destruct (Js.getOwn k acc) as [v|] eqn:Hg.
        -- unfold Js.get. rewrite Hg. now rewrite later_increment.
        -- rewrite (increment_fresh _ _ Hg), later_held. reflexivity.
      * assert (k = "__proto__") as ->.
        { unfold keyed in Hkey. destruct (String.eqb_spec k "__proto__");
            [assumption | discriminate]. }
        rewrite Hp. reflexivity.
    + rewrite andb_false_r. reflexivity.
Qed.

Lemma NoDup_keys_fold_count1 l : forall acc,
  NoDup (Js.keys acc) -> NoDup (Js.keys (fold_left count1 l acc)).
Proof.
  induction l as [|e l IH]; intros acc Hnd; simpl; [assumption|].
  apply IH. unfold count1. destruct (known (band e)); [|assumption].
  now apply NoDup_keys_set.
Qed.

Lemma getOwn_bandCounts b episodes :
  Js.getOwn b (App.bandCounts episodes) =
  if keyed b && negb (mentions b episodes =? 0)
  then Some (held b (mentions b episodes)) else None.
Proof. rewrite bandCounts_fold, getOwn_fold_count1; reflexivity. Qed.

Lemma bandCounts_NoDup episodes : NoDup (Js.keys (App.bandCounts episodes)).
Proof. rewrite bandCounts_fold. apply NoDup_keys_fold_count1. constructor. Qed.

Lemma mentions_pos_iff b l :
  0 < mentions b l <-> exists e, In e l /\ known (band e) = true /\ band e = b.
Proof.
  unfold mentions, knownEpisodes. split.
  - intros H.
    destruct (filter (fun e => (band e =? b)%string) (filter (fun e => known (band e)) l))
      as [|e r] eqn:Hf; [simpl in H; lia|].
    assert (Hin : In e (e :: r)) by now left.
    rewrite <- Hf in Hin. apply filter_In in Hin as [Hin Hb].
    apply filter_In in Hin as [Hin Hk].
    exists e. repeat split; try assumption. now apply String.eqb_eq.
  - intros (e & Hin & Hk & Hb).
    assert (Hin' : In e (filter (fun e => (band e =? b)%string)
                           (filter (fun e => known (band e)) l))).
    { apply filter_In. split; [apply filter_In; now split | now apply String.eqb_eq]. }
    destruct (filter _ _); [contradiction | simpl; lia].
Qed.

(** The entries of the count object: each known band but [__proto__] once,
    with what it holds after its mentions. *)
Lemma bandCounts_entry episodes b v :
  In (b, v) (Js.entries (App.bandCounts episodes)) <->
  keyed b = true /\ 0 < mentions b episodes /\ v = held b (mentions b episodes).
Proof.
  unfold Js.entries.
  pose proof (bandCounts_NoDup episodes) as Hnd.
  pose proof (getOwn_bandCounts b episodes) as Hg.
  split.
  - intros Hin. apply (In_getOwn _ _ _ Hnd) in Hin. rewrite Hin in Hg.
    destruct (keyed b); [|discriminate].
    destruct (Nat.eqb_spec (mentions b episodes) 0); [discriminate|].
    injection Hg as ->. repeat split. lia.
  - intros (Hk & Hpos & ->). apply getOwn_Some_In. rewrite Hg, Hk.
    destruct (Nat.eqb_spec (mentions b episodes) 0); [lia | reflexivity].
Qed.

(** ** Distinct names *)

Lemma In_distinct x l : In x (distinct l) <-> In x l.
Proof.
  induction l as [|y l IH]; simpl; [tauto|].
  rewrite filter_In, IH.
  destruct (String.eqb_spec x y) as [->|Hne]; simpl.
  - tauto.
  - split; [tauto|]. intros [->|H]; [congruence | auto].
Qed.

Lemma NoDup_distinct l : NoDup (distinct l).
Proof.
  induction l as [|y l IH]; simpl; constructor.
  - rewrite filter_In, String.eqb_refl. simpl. intros [_ H]. discriminate.
  - now apply NoDup_filter.
Qed.

Lemma length_distinct l : length (distinct l) <= length l.
Proof.
  induction l as [|y l IH]; simpl; [lia|].
  pose proof (filter_length_le (fun z => negb (z =? y)%string) (distinct l)). lia.
Qed.

Lemma In_knownBands b episodes :
  In b (knownBands episodes) <->
  exists e, In e episodes /\ known (band e) = true /\ band e = b.
Proof.
  unfold knownBands, knownEpisodes. rewrite In_distinct, in_map_iff.
  split; intros (e & H1 & H2).
  - apply filter_In in H2. exists e. tauto.
  - exists e. rewrite filter_In. tauto.
Qed.

Lemma In_keyedBands b episodes :
  In b (keyedBands episodes) <-> keyed b = true /\ 0 < mentions b episodes.
Proof.
  unfold keyedBands. rewrite filter_In, In_knownBands, mentions_pos_iff. tauto.
Qed.

Lemma bandCounts_key episodes b :
  In b (Js.keys (App.bandCounts episodes)) <-> In b (keyedBands episodes).
Proof.
  rewrite In_keyedBands. unfold Js.keys. rewrite in_map_iff. split.
  - intros ([b' v] & Hb & Hin). simpl in Hb. subst b'.
    apply bandCounts_entry in Hin. tauto.
  - intros [Hk Hpos]. exists (b, held b (mentions b episodes)).
    split; [reflexivity|]. now apply bandCounts_entry.
Qed.

Lemma keys_bandCounts_perm episodes :
  Permutation (Js.keys (App.bandCounts episodes)) (keyedBands episodes).
Proof.
  apply NoDup_Permutation.
  - apply bandCounts_NoDup.
  - apply NoDup_filter, NoDup_distinct.
  - intros b. apply bandCounts_key.
Qed.

(** The count object has one key per distinct known band but [__proto__]. *)
Lemma length_keys_bandCounts episodes :
  length (Js.keys (App.bandCounts episodes)) = length (keyedBands episodes).
Proof. apply Permutation_length, keys_bandCounts_perm. Qed.

Lemma length_knownBands_le episodes :
  length (knownBands episodes) <= length (knownEpisodes episodes).
Proof.
  unfold knownBands. rewrite <- (length_map band (knownEpisodes episodes)).
  apply length_distinct.
Qed.

Lemma length_keyedBands_le episodes :
  length (keyedBands episodes) <= length (knownEpisodes episodes).
Proof.
  pose proof (length_knownBands_le episodes).
  pose proof (filter_length_le keyed (knownBands episodes)).
  unfold keyedBands. lia.
Qed.

(** ** Lists without the name of an inherited member *)

Lemma plainNames_spec episodes :
  plainNames episodes = true <->
  forall e, In e episodes -> known (band e) = true -> Js.inherited (band e) = false.
Proof.
  unfold plainNames. rewrite forallb_forall. split; intros H e He.
  - intros Hk. specialize (H e He). rewrite Hk in H. simpl in H.
    now destruct (Js.inherited (band e)).
  - destruct (known (band e)) eqn:Hk; [|reflexivity].
    now rewrite (H e He Hk).
Qed.

Lemma plainNames_band episodes b :
  plainNames episodes = true -> In b (knownBands episodes) -> Js.inherited b = false.
Proof.
  intros H Hin. apply In_knownBands in Hin as (e & He & Hk & <-).
  now apply (proj1 (plainNames_spec episodes) H).
Qed.

Lemma filter_all {A : Type} (f : A -> bool) l :
  (forall x, In x l -> f x = true) -> filter f l = l.
Proof.
  induction l as [|x l IH]; intros H; simpl; [reflexivity|].
  rewrite (H x (in_eq x l)), IH; [reflexivity|]. intros y Hy. apply H. now right.
Qed.

Lemma plainNames_keyedBands episodes :
  plainNames episodes = true -> keyedBands episodes = knownBands episodes.
Proof.
  intros H. unfold keyedBands. apply filter_all. intros b Hb.
  apply keyed_plain. now apply (plainNames_band episodes).
Qed.

Lemma plainNames_entry episodes b v :
  plainNames episodes = true ->
  In (b, v) (Js.entries (App.bandCounts episodes)) <->
  0 < mentions b episodes /\ v = Js.Num (mentions b episodes).
Proof.
  intros H. rewrite bandCounts_entry. split.
  - intros (_ & Hpos & ->). split; [exact Hpos|].
    unfold held. rewrite (plainNames_band episodes b H); [reflexivity|].
    now apply In_knownBands, mentions_pos_iff.
  - intros (Hpos & ->).
    assert (Hi : Js.inherited b = false)
      by (apply (plainNames_band episodes b H); now apply In_knownBands, mentions_pos_iff).
    split; [now apply keyed_plain|]. split; [exact Hpos|].
    unfold held. now rewrite Hi.
Qed.

Lemma plainNames_counts episodes :
  plainNames episodes = true ->
  Forall (fun entry => snd entry = Js.Num (count (snd entry)) /\ 0 < count (snd entry))
         (Js.entries (App.bandCounts episodes)).
Proof.
  intros H. apply Forall_forall. intros [b v] Hin.
  apply (plainNames_entry _ _ _ H) in Hin as [Hpos ->]. simpl. now split.
Qed.

Lemma list_sum_replace {V : Type} (f : V -> nat) k v c (o : Js.Object V) :
  Js.getOwn k o = Some c ->
  list_sum (map (fun p => f (snd p)) (Js.replace k v o)) + f c
  = list_sum (map (fun p => f (snd p)) o) + f v.
Proof.
  induction o as [|[k' v'] o IH]; simpl; [discriminate|].
  destruct (k' =? k)%string; simpl.
  - intros [= ->]. lia.
  - intros H. specialize (IH H). lia.
Qed.

Lemma list_sum_define {V : Type} (f : V -> nat) k v (o : Js.Object V) :
  list_sum (map (fun p => f (snd p)) (Js.define k v o))
  + match Js.getOwn k o with Some c => f c | None => 0 end
  = list_sum (map (fun p => f (snd p)) o) + f v.
Proof.
  destruct (Js.getOwn k o) as [c|] eqn:Hk.
  - rewrite (define_old _ _ _ _ Hk). now apply list_sum_replace.
  - destruct (define_new k v o Hk) as (o1 & o2 & Ho & ->).
    subst o. rewrite !map_app, !list_sum_app. simpl. lia.
Qed.

(** In a list without the name of an inherited member every count is a
    number, and the numbers add up to the known-band episodes. *)
Lemma list_sum_fold_count1 l : forall acc,
  plainNames l = true ->
  Forall (fun p => snd p = Js.Num (count (snd p))) acc ->
  Forall (fun p => snd p = Js.Num (count (snd p))) (fold_left count1 l acc)
  /\ list_sum (map (fun p => count (snd p)) (fold_left count1 l acc))
     = list_sum (map (fun p => count (snd p)) acc) + length (knownEpisodes l).
Proof.
  induction l as [|e l IH]; intros acc Hplain Hnum.
  - simpl. split; [assumption | lia].
  - simpl in Hplain. apply andb_true_iff in Hplain as [He Hl].
    simpl fold_left. unfold count1 at 2 4, knownEpisodes. simpl filter.
    fold (knownEpisodes l).
    destruct (known (band e)) eqn:Hk; [|now apply IH].
    simpl in He. apply negb_true_iff in He.
    assert (Hv : exists n,
               Js.increment (Js.get (band e) acc) = Js.Num (n + 1)
               /\ match Js.getOwn (band e) acc with
                  | Some c => count c | None => 0 end = n).
    { rewrite (get_plain _ _ He).
      destruct (Js.getOwn (band e) acc) as [c|] eqn:Hg.
      - apply getOwn_Some_In in Hg. rewrite Forall_forall in Hnum.
        specialize (Hnum _ Hg). simpl in Hnum. rewrite Hnum. simpl.
        now exists (count c).
      - now exists 0. }
    destruct Hv as (n & Hinc & Hn).
    unfold Js.set.
    destruct (String.eqb_spec (band e) "__proto__") as [Heq|_];
      [rewrite Heq in He; discriminate|].
    rewrite Hinc.
    destruct (IH (Js.define (band e) (Js.Num (n + 1)) acc) Hl) as [Hall Hsum].
    { destruct (Js.getOwn (band e) acc) as [c|] eqn:Hg.
      - rewrite (define_old _ _ _ _ Hg).
        clear - Hnum. induction acc as [|[k' v'] acc IHa]; simpl; [constructor|].
        inversion Hnum as [|? ? Hh Ht]; subst.
        destruct (k' =? band e)%string; constructor; auto.
      - destruct (define_new (band e) (Js.Num (n + 1)) acc Hg) as (o1 & o2 & Ho & ->).
        subst acc. apply Forall_app in Hnum as [H1 H2].
        apply Forall_app. split; [assumption|]. constructor; [reflexivity | assumption]. }
    split; [exact Hall|]. rewrite Hsum.
    pose proof (list_sum_define count (band e) (Js.Num (n + 1)) acc) as Hd.
    rewrite Hn in Hd. simpl count in Hd. simpl length. lia.
Qed.

Lemma bandCounts_sum episodes :
  plainNames episodes = true ->
  list_sum (map (fun p => count (snd p)) (Js.entries (App.bandCounts episodes)))
  = length (knownEpisodes episodes).
Proof.
  intros H. rewrite bandCounts_fold.
  destruct (list_sum_fold_count1 episodes Js.empty H) as [_ Hsum]; [constructor|].
  exact Hsum.
Qed.

(** C10, as the code has it: in an episode list where no known band has the
    name of a member of [Object.prototype], every entry of [bandCounts] has
    a strictly positive count (the number of mentions of its band), the
    keys are exactly the known bands that occur in the list, each once, and
    the counts add up to the number of known-band episodes. *)
Theorem bandCounts_invariant (episodes : list Episode)
    (H : plainNames episodes = true) :
  (forall b v, In (b, v) (Js.entries (App.bandCounts episodes)) ->
     exists n, v = Js.Num n /\ 0 < n /\ n = mentions b episodes)
  /\ (forall b, In b (Js.keys (App.bandCounts episodes)) <->
        exists e, In e episodes /\ known (band e) = true /\ band e = b)
  /\ NoDup (Js.keys (App.bandCounts episodes))
  /\ list_sum (map (fun p => count (snd p)) (Js.entries (App.bandCounts episodes)))
     = length (knownEpisodes episodes).
Proof.
  split; [|split; [|split]].
  - intros b v Hin. apply (plainNames_entry _ _ _ H) in Hin as [Hpos ->].
    now exists (mentions b episodes).
  - intros b. rewrite bandCounts_key, (plainNames_keyedBands _ H).
    apply In_knownBands.
  - apply bandCounts_NoDup.
  - now apply bandCounts_sum.
Qed.

Lemma bandCounts_invariant_witness :
  let episodes := [ep "1" "Wilco"; ep "2" "<unknown>"; ep "3" "Wilco"; ep "4" "311"] in
  (forall b v, In (b, v) (Js.entries (App.bandCounts episodes)) ->
     exists n, v = Js.Num n /\ 0 < n /\ n = mentions b episodes)
  /\ (forall b, In b (Js.keys (App.bandCounts episodes)) <->
        exists e, In e episodes /\ known (band e) = true /\ band e = b)
  /\ NoDup (Js.keys (App.bandCounts episodes))
  /\ list_sum (map (fun p => count (snd p)) (Js.entries (App.bandCounts episodes)))
     = length (knownEpisodes episodes).
Proof.
  apply (bandCounts_invariant
           [ep "1" "Wilco"; ep "2" "<unknown>"; ep "3" "Wilco"; ep "4" "311"]).
  reflexivity.
Defined.

(** C10 fails on a band named like a member of [Object.prototype]: the band
    [__proto__] is known and gets no key, and under [constructor] the count
    object holds a string, the text of the inherited function followed by
    [1], not a positive count. *)
Lemma bandCounts_member_names :
  known "__proto__" = true
  /\ App.bandCounts [ep "1" "__proto__"] = []
  /\ known "constructor" = true
  /\ App.bandCounts [ep "1" "constructor"] = [("constructor", Js.Text "constructor" 1)].
Proof. repeat split. Qed.

(** ** The divisor of the known-bands percentage *)

Lemma includes_empty sub : Js.includes "" sub = (sub =? "")%string.
Proof. destruct sub; reflexivity. Qed.

Lemma totalCountable_countable episodes :
  App.totalCountableEpisodes episodes = length (filter countable episodes).
Proof.
  unfold App.totalCountableEpisodes. f_equal. apply filter_ext.
  intros e. unfold countable. apply negb_orb.
Qed.

(** The countable episodes are the known-band ones and the ones whose band
    is the empty string. *)
Lemma totalCountable_split episodes :
  App.totalCountableEpisodes episodes =
  length (knownEpisodes episodes)
  + length (filter (fun e => (band e =? "")%string) episodes).
Proof.
  rewrite totalCountable_countable. unfold knownEpisodes.
  induction episodes as [|e l IH]; simpl; [reflexivity|].
  unfold countable at 1, known at 1.
  destruct (String.eqb_spec (band e) "") as [He|He].
  - rewrite He, !includes_empty. simpl. lia.
  - simpl. destruct (negb (Js.includes (band e) "<") && negb (Js.includes (band e) ">"));
      simpl; lia.
Qed.

(** ** Quotients of lengths *)

Lemma times100_div_zero a : a <= 0 -> Js.times100 (Js.div a 0) = Js.NaN.
Proof. intros H. now replace a with 0 by lia. Qed.

Lemma times100_div_percentage a b :
  a <= b -> 0 < b -> percentage (Js.times100 (Js.div a b)).
Proof.
  intros Hab Hb. destruct b as [|b]; [lia|].
  unfold Js.div, Js.times100, percentage.
  assert (Hp : Z.pos (Pos.of_nat (S b)) = Z.of_nat (S b)).
  { rewrite <- Pos.of_nat_succ, Zpos_P_of_succ_nat. lia. }
  unfold Qle, Qmult. cbn [Qnum Qden].
  rewrite Pos2Z.inj_mul, Hp. split; lia.
Qed.

(** ** Sorting *)

Section SortFacts.
Context {A : Type}.

Lemma insert_perm (cmp : A -> A -> Z) x l :
  Permutation (Js.insert cmp x l) (x :: l).
Proof.
  induction l as [|y l IH]; simpl; [reflexivity|].
  destruct (cmp x y <=? 0)%Z; [reflexivity|].
  rewrite IH. apply perm_swap.
Qed.

Lemma stableSort_perm (cmp : A -> A -> Z) l : Permutation (Js.stableSort cmp l) l.
Proof.
  induction l as [|x l IH]; simpl; [reflexivity|].
  rewrite insert_perm. now constructor.
Qed.

Lemma stableSort_length (cmp : A -> A -> Z) l :
  length (Js.stableSort cmp l) = length l.
Proof. apply Permutation_length, stableSort_perm. Qed.

(** Whatever its order, the sorted array holds the elements of the
    array. *)
Lemma sort_perm (comparator : A -> A -> option Z) l :
  Permutation (Js.items (Js.sort comparator l)) l.
Proof.
  unfold Js.sort. destruct ((length l <=? 1) || Js.consistentOn comparator l).
  - apply stableSort_perm.
  - reflexivity.
Qed.

Lemma sort_length (comparator : A -> A -> option Z) l :
  length (Js.items (Js.sort comparator l)) = length l.
Proof. apply Permutation_length, sort_perm. Qed.

Lemma sort_nil (comparator : A -> A -> option Z) :
  Js.sort comparator [] = Js.InOrder [].
Proof. reflexivity. Qed.

End SortFacts.

Lemma length_sortedBands episodes :
  length (Js.items (StatsPage.sortedBands episodes)) = length (keyedBands episodes).
Proof.
  unfold StatsPage.sortedBands. rewrite sort_length, bandMentions_bandCounts.
  unfold Js.entries. rewrite <- length_keys_bandCounts. unfold Js.keys.
  now rewrite length_map.
Qed.

(** C1, as the code has it: with at least one countable episode the
    known-bands percentage is a number between 0 and 100, and with none it
    is the quotient 0/0, NaN; the new-band percentage is a number between 0
    and 100 when the count object has a key, that is when some band other
    than [__proto__] is known, and NaN when it has none. *)
Theorem percentages_range (episodes : list Episode) :
  (0 < App.totalCountableEpisodes episodes ->
     percentage (App.knownBandsPercentage episodes))
  /\ (App.totalCountableEpisodes episodes = 0 ->
        App.knownBandsPercentage episodes = Js.NaN)
  /\ (0 < length (keyedBands episodes) ->
        percentage (StatsPage.newBandPercentage (StatsPage.stats episodes)))
  /\ (length (keyedBands episodes) = 0 ->
        StatsPage.newBandPercentage (StatsPage.stats episodes) = Js.NaN).
Proof.
  assert (Hle : length (Js.keys (App.bandCounts episodes))
                <= App.totalCountableEpisodes episodes).
  { rewrite length_keys_bandCounts, totalCountable_split.
    pose proof (length_keyedBands_le episodes). lia. }
  unfold App.knownBandsPercentage.
  split; [|split; [|split]].
  - intros Hpos. now apply times100_div_percentage.
  - intros Hzero. rewrite Hzero in *. now apply times100_div_zero.
  - intros Hpos. cbn [StatsPage.stats StatsPage.newBandPercentage].
    rewrite <- length_sortedBands in Hpos.
    apply times100_div_percentage; [apply filter_length_le | exact Hpos].
  - intros Hzero. cbn [StatsPage.stats StatsPage.newBandPercentage].
    rewrite <- length_sortedBands in Hzero. rewrite Hzero.
    apply times100_div_zero.
    pose proof (filter_length_le (fun '(_, count) => Js.isOne count)
                  (Js.items (StatsPage.sortedBands episodes))). lia.
Qed.

Lemma percentages_range_witness :
  let episodes := [ep "1" "Wilco"; ep "2" "Beck"; ep "3" "Wilco"] in
  percentage (App.knownBandsPercentage episodes)
  /\ percentage (StatsPage.newBandPercentage (StatsPage.stats episodes)).
Proof.
  split.
  - apply (proj1 (percentages_range [ep "1" "Wilco"; ep "2" "Beck"; ep "3" "Wilco"])).
    vm_compute. lia.
  - apply (proj1 (proj2 (proj2
             (percentages_range [ep "1" "Wilco"; ep "2" "Beck"; ep "3" "Wilco"])))).
    vm_compute. lia.
Defined.

(** C1 fails on the empty episode list: nothing is countable, and both
    percentages are NaN, which is not the number 0. *)
Lemma percentages_empty_list :
  App.totalCountableEpisodes [] = 0
  /\ App.knownBandsPercentage [] = Js.NaN
  /\ StatsPage.newBandPercentage (StatsPage.stats []) = Js.NaN
  /\ ~ sameNumber (App.knownBandsPercentage []) (Js.Finite 0).
Proof. repeat split. intros H. exact H. Qed.

(** C3, as the code has it: the known-bands percentage is the number of
    distinct known bands, a band named [__proto__] not counted, divided by
    the number of episodes whose band holds neither [<] nor [>], times 100;
    these are the known-band episodes and the episodes whose band is the
    empty string, which count in the divisor. *)
Theorem knownBandsPercentage_formula (episodes : list Episode) :
  App.knownBandsPercentage episodes =
  Js.times100
    (Js.div (length (keyedBands episodes))
            (length (knownEpisodes episodes)
             + length (filter (fun e => (band e =? "")%string) episodes)))
  /\ length (knownEpisodes episodes)
     + length (filter (fun e => (band e =? "")%string) episodes)
     = length (filter countable episodes).
Proof.
  unfold App.knownBandsPercentage.
  rewrite length_keys_bandCounts, <- totalCountable_split.
  split; [reflexivity | apply totalCountable_countable].
Qed.

(** C3 fails when a band is the empty string: with one such episode and one
    episode of a known band the code gives 50, the claim's quotient 100. *)
Lemma knownBandsPercentage_counts_empty_band :
  let episodes := [ep "1" ""; ep "2" "Wilco"] in
  sameNumber (App.knownBandsPercentage episodes) (Js.Finite 50)
  /\ length (knownBands episodes) = 1
  /\ length (knownEpisodes episodes) = 1
  /\ sameNumber
       (Js.times100
          (Js.div (length (knownBands episodes)) (length (knownEpisodes episodes))))
       (Js.Finite 100).
Proof. repeat split. Qed.

(** ** The stats of a list without a known band *)

Lemma bandCounts_nil_iff episodes :
  App.bandCounts episodes = [] <-> keyedBands episodes = [].
Proof.
  pose proof (length_keys_bandCounts episodes) as Hk.
  unfold Js.keys in Hk. rewrite length_map in Hk.
  split; intros H; apply length_zero_iff_nil.
  - rewrite <- Hk, H. reflexivity.
  - rewrite Hk, H. reflexivity.
Qed.

Lemma keyedBands_nil episodes : knownEpisodes episodes = [] -> keyedBands episodes = [].
Proof. intros H. unfold keyedBands, knownBands. now rewrite H. Qed.

Lemma find_filter_nil {A : Type} (p : A -> bool) l : filter p l = [] -> find p l = None.
Proof.
  induction l as [|x l IH]; simpl; [reflexivity|].
  destruct (p x); [discriminate | exact IH].
Qed.

(** C2, as the code has it: on the empty episode list, and on every list
    without a known band, the stats derivation returns with the most and the
    least mentioned band and the last mention undefined, and with NaN as the
    new-band percentage; the known-bands percentage is 0 divided by the
    number of episodes whose band is the empty string, times 100, which is
    NaN on the empty list. *)
Theorem stats_without_known_band (episodes : list Episode)
    (H : knownEpisodes episodes = []) :
  StatsPage.stats episodes =
  {| StatsPage.mostMentionedBand := Js.Exactly None;
     StatsPage.leastMentionedBand := Js.Exactly None;
     StatsPage.newBandPercentage := Js.NaN;
     StatsPage.lastMentionedBand := None |}
  /\ App.knownBandsPercentage episodes =
     Js.times100
       (Js.div 0 (length (filter (fun e => (band e =? "")%string) episodes))).
Proof.
  pose proof (keyedBands_nil _ H) as Hkeyed.
  split.
  - unfold StatsPage.stats, StatsPage.sortedBands.
    apply bandCounts_nil_iff in Hkeyed as Hc.
    rewrite bandMentions_bandCounts, Hc. simpl.
    f_equal. apply find_filter_nil. exact H.
  - unfold App.knownBandsPercentage.
    rewrite length_keys_bandCounts, totalCountable_split, Hkeyed.
    now rewrite H.
Qed.

Lemma stats_without_known_band_witness :
  StatsPage.stats [] =
  {| StatsPage.mostMentionedBand := Js.Exactly None;
     StatsPage.leastMentionedBand := Js.Exactly None;
     StatsPage.newBandPercentage := Js.NaN;
     StatsPage.lastMentionedBand := None |}
  /\ App.knownBandsPercentage [] = Js.NaN.
Proof. apply (stats_without_known_band []). reflexivity. Defined.

(** C2 fails on the empty episode list: the percentages are NaN, not 0, and
    rendering the stats view throws, the most mentioned band being indexed
    while it is undefined. *)
Lemma stats_empty_list :
  StatsPage.newBandPercentage (StatsPage.stats []) = Js.NaN
  /\ App.knownBandsPercentage [] = Js.NaN
  /\ StatsPage.mostMentionedBand (StatsPage.stats []) = Js.Exactly None
  /\ StatsPage.render [] = Js.TypeError.
Proof. repeat split. Qed.

(** ** The list under the search box *)

(** C4 fails on one episode of the band Wilco and the search term x: no
    episode matches, and the band and count modes still list Wilco in the
    first revision, and throw in the second, where the episodes of the band
    are looked up in the groups of the filtered list. *)
Lemma rendered_ignores_search (localeCompare : string -> string -> Z) :
  let episodes := [ep "1" "Wilco"] in
  App.filteredEpisodes episodes "x" = []
  /\ Revised.filteredEpisodes episodes "x" = []
  /\ App.sortedBands localeCompare by_band episodes
     = Js.InOrder [("Wilco", Js.Num 1)]
  /\ App.sortedBands localeCompare by_count episodes
     = Js.InOrder [("Wilco", Js.Num 1)]
  /\ App.rendered localeCompare by_band episodes "x"
     = Js.InOrder [BandItem "Wilco" (Js.Num 1) []]
  /\ App.rendered localeCompare by_count episodes "x"
     = Js.InOrder [BandItem "Wilco" (Js.Num 1) []]
  /\ Revised.rendered localeCompare by_band episodes "x" = Js.TypeError
  /\ Revised.rendered localeCompare by_count episodes "x" = Js.TypeError.
Proof. repeat split. Qed.

(** ** Consistent comparators *)

Section Consistency.
Context {A : Type} (cmp : A -> A -> Z).
Hypothesis cmp_consistent : Consistent cmp.

Lemma Consistent_total x y : (0 < cmp x y)%Z -> (cmp y x <= 0)%Z.
Proof.
  destruct cmp_consistent as (Hrefl & Hsym & _ & _ & Hgt).
  intros Hxy.
  destruct (Z.lt_trichotomy (cmp y x) 0) as [Hlt | [Heq | Hpos]]; [lia | lia |].
  pose proof (Hgt x y x Hxy Hpos). pose proof (Hrefl x). lia.
Qed.

Lemma Consistent_antisym x y : (cmp x y < 0)%Z -> (0 < cmp y x)%Z.
Proof.
  destruct cmp_consistent as (Hrefl & Hsym & _ & Hlt & _).
  intros Hxy.
  destruct (Z.lt_trichotomy (cmp y x) 0) as [Hneg | [Heq | Hpos]]; [| |lia].
  - pose proof (Hlt x y x Hxy Hneg). pose proof (Hrefl x). lia.
  - pose proof (Hsym y x Heq). lia.
Qed.

Lemma Consistent_le_trans x y z :
  (cmp x y <= 0)%Z -> (cmp y z <= 0)%Z -> (cmp x z <= 0)%Z.
Proof.
  pose proof cmp_consistent as (Hrefl & Hsym & Heq & Hlt & Hgt).
  intros Hxy Hyz.
  destruct (Z.lt_trichotomy (cmp x z) 0) as [Hneg | [Hzero | Hpos]]; [lia | lia |].
  exfalso.
  assert (Hzx : (cmp z x < 0)%Z).
  { destruct (Z.lt_trichotomy (cmp z x) 0) as [H | [H | H]]; [assumption | |].
    - pose proof (Hsym z x H). lia.
    - pose proof (Hgt x z x Hpos H). pose proof (Hrefl x). lia. }
  destruct (Z.eq_dec (cmp x y) 0) as [Exy | Nxy];
    destruct (Z.eq_dec (cmp y z) 0) as [Eyz | Nyz].
  - pose proof (Heq x y z Exy Eyz). lia.
  - assert (Hyz' : (cmp y z < 0)%Z) by lia.
    pose proof (Hlt y z x Hyz' Hzx) as Hyx.
    pose proof (Hsym x y Exy). lia.
  - assert (Hxy' : (cmp x y < 0)%Z) by lia.
    pose proof (Hlt z x y Hzx Hxy') as Hzy.
    pose proof (Hsym y z Eyz). lia.
  - assert (Hxy' : (cmp x y < 0)%Z) by lia.
    assert (Hyz' : (cmp y z < 0)%Z) by lia.
    pose proof (Hlt x y z Hxy' Hyz'). lia.
Qed.

Lemma insert_sorted x l :
  StronglySorted (inOrder cmp) l -> StronglySorted (inOrder cmp) (Js.insert cmp x l).
Proof.
  induction 1 as [|y l Hs IH Hy]; simpl.
  - repeat constructor.
  - destruct (Z.leb_spec (cmp x y) 0) as [Hle|Hgt].
    + constructor; [now constructor|].
      constructor; [exact Hle|].
      eapply Forall_impl; [|exact Hy]. intros z Hz.
      now apply Consistent_le_trans with y.
    + constructor; [exact IH|].
      apply (Permutation_Forall (Permutation_sym (insert_perm cmp x l))).
      constructor; [now apply Consistent_total | exact Hy].
Qed.

Lemma stableSort_sorted l : StronglySorted (inOrder cmp) (Js.stableSort cmp l).
Proof.
  induction l as [|x l IH]; simpl; [constructor | now apply insert_sorted].
Qed.

(** A comparator that is consistent on all values is consistent on the
    elements of a list. *)
Lemma consistentOn_intro (comparator : A -> A -> option Z) l :
  (forall x y, In x l -> In y l -> comparator x y = Some (cmp x y)) ->
  Js.consistentOn comparator l = true.
Proof.
  pose proof cmp_consistent as (Hrefl & Hsym & Heq & Hlt & Hgt).
  intros Hc. unfold Js.consistentOn.
  apply forallb_forall. intros a Ha.
  apply forallb_forall. intros b Hb.
  apply forallb_forall. intros c Hcc.
  unfold Js.isNumber, Js.isEqual, Js.isLess, Js.isGreater.
  rewrite !Hc by assumption.
  specialize (Hrefl a). specialize (Hsym a b). specialize (Heq a b c).
  specialize (Hlt a b c). specialize (Hgt a b c).
  destruct (Z.eqb_spec (cmp a a) 0); [|contradiction].
  destruct (Z.eqb_spec (cmp a b) 0), (Z.eqb_spec (cmp b a) 0),
           (Z.eqb_spec (cmp b c) 0), (Z.eqb_spec (cmp a c) 0),
           (Z.ltb_spec (cmp a b) 0), (Z.ltb_spec (cmp b c) 0),
           (Z.ltb_spec (cmp a c) 0),
           (Z.ltb_spec 0 (cmp a b)), (Z.ltb_spec 0 (cmp b c)),
           (Z.ltb_spec 0 (cmp a c)); try reflexivity; exfalso; lia.
Qed.

End Consistency.

Section SortExt.
Context {A : Type} (cmp cmp' : A -> A -> Z).

Lemma insert_ext_in x l :
  (forall y, In y l -> cmp x y = cmp' x y) ->
  Js.insert cmp x l = Js.insert cmp' x l.
Proof.
  induction l as [|y l IH]; intros H; [reflexivity|].
  cbn [Js.insert]. rewrite (H y (in_eq y l)).
  destruct (cmp' x y <=? 0)%Z; [reflexivity|].
  f_equal. apply IH. intros z Hz. apply H. now right.
Qed.

Lemma stableSort_ext_in l :
  (forall x y, In x l -> In y l -> cmp x y = cmp' x y) ->
  Js.stableSort cmp l = Js.stableSort cmp' l.
Proof.
  induction l as [|x l IH]; intros H; [reflexivity|].
  cbn [Js.stableSort fold_right]. fold (Js.stableSort cmp l). fold (Js.stableSort cmp' l).
  rewrite IH by (intros; apply H; now right).
  apply insert_ext_in. intros y Hy. apply H; [now left|]. right.
  apply (Permutation_in _ (stableSort_perm cmp' l) Hy).
Qed.

End SortExt.

(** With a comparator that is consistent, and a number on the elements of
    the array, the sorted array is the stable sort. *)
Lemma sort_InOrder {A : Type} (cmp : A -> A -> Z) (comparator : A -> A -> option Z) l :
  Consistent cmp ->
  (forall x y, In x l -> In y l -> comparator x y = Some (cmp x y)) ->
  Js.sort comparator l = Js.InOrder (Js.stableSort cmp l).
Proof.
  intros Hcons Hc. unfold Js.sort.
  rewrite (consistentOn_intro cmp Hcons comparator l Hc), orb_true_r.
  f_equal. apply stableSort_ext_in. intros x y Hx Hy.
  unfold Js.sortCompare. now rewrite Hc.
Qed.

Lemma Consistent_byCount : Consistent byCount.
Proof. unfold byCount. repeat split; intros; lia. Qed.




Lemma StronglySorted_impl {A : Type} (R R' : A -> A -> Prop) l :
  (forall x y, R x y -> R' x y) -> StronglySorted R l -> StronglySorted R' l.
Proof.
  intros HR. induction 1 as [|x l Hs IH Hx]; constructor; [exact IH|].
  eapply Forall_impl; [|exact Hx]. intros y. apply HR.
Qed.

(** The entries of a list without member names compare by their counts. *)
Lemma minus_byCount episodes x y :
  plainNames episodes = true ->
  In x (Js.entries (App.bandCounts episodes)) ->
  In y (Js.entries (App.bandCounts episodes)) ->
  Js.minus (snd y) (snd x) = Some (byCount x y).
Proof.
  intros H Hx Hy. pose proof (plainNames_counts _ H) as Hnum.
  rewrite Forall_forall in Hnum.
  destruct (Hnum _ Hx) as [-> _]. destruct (Hnum _ Hy) as [Hy' _].
  unfold byCount. rewrite Hy'. reflexivity.
Qed.

Lemma sortedBands_by_count localeCompare episodes :
  plainNames episodes = true ->
  App.sortedBands localeCompare by_count episodes
  = Js.InOrder (Js.stableSort byCount (Js.entries (App.bandCounts episodes))).
Proof.
  intros H. unfold App.sortedBands.
  apply sort_InOrder; [apply Consistent_byCount|].
  intros x y Hx Hy. now apply (minus_byCount episodes).
Qed.





(** ** The two ends of the list sorted by count *)

Lemma at_0 {A : Type} (s : list A) : Js.at_ s 0 = hd_error s.
Proof. now destruct s. Qed.

Lemma at_last {A : Type} (s : list A) (d : A) :
  Js.at_ s (Z.of_nat (length s) - 1) =
  match s with [] => None | _ :: _ => Some (last s d) end.
Proof.
  unfold Js.at_. destruct s as [|x s]; [reflexivity|].
  destruct (Z.ltb_spec (Z.of_nat (length (x :: s)) - 1) 0) as [Hlt|_];
    [simpl length in Hlt; lia|].
  replace (Z.to_nat (Z.of_nat (length (x :: s)) - 1)) with (length s)
    by (simpl length; lia).
  revert x. induction s as [|y s IH]; intros x; [reflexivity|].
  simpl length. simpl nth_error. rewrite (IH y). reflexivity.
Qed.

Lemma byCount_le x y : (byCount x y <= 0)%Z <-> count (snd y) <= count (snd x).
Proof. unfold byCount. lia. Qed.

Lemma stableSort_nil_inv {A : Type} (cmp : A -> A -> Z) l :
  Js.stableSort cmp l = [] -> l = [].
Proof.
  intros H. apply length_zero_iff_nil. rewrite <- (stableSort_length cmp l), H.
  reflexivity.
Qed.

(** The stable sort puts first the first of the entries of greatest count. *)
Lemma hd_sort l :
  match Js.stableSort byCount l with
  | [] => l = []
  | x :: _ => firstGreatest x l
  end.
Proof.
  induction l as [|x l IH]; [reflexivity|].
  simpl. destruct (Js.stableSort byCount l) as [|y s] eqn:Hs.
  - apply stableSort_nil_inv in Hs. subst l. simpl.
    exists [], []. repeat split; constructor.
  - simpl. destruct IH as (l1 & l2 & Hl & H1 & H2).
    destruct (Z.leb_spec (byCount x y) 0) as [Hle|Hgt].
    + apply byCount_le in Hle. exists [], l. repeat split; [constructor|].
      subst l. apply Forall_app. split; [|constructor; [exact Hle|]].
      * eapply Forall_impl; [|exact H1]. simpl. intros; lia.
      * eapply Forall_impl; [|exact H2]. simpl. intros; lia.
    + assert (Hxy : count (snd x) < count (snd y)) by (unfold byCount in Hgt; lia).
      exists (x :: l1), l2. subst l. repeat split; [|exact H2].
      now constructor.
Qed.

Lemma last_insert {A : Type} (cmp : A -> A -> Z) x s d :
  last (Js.insert cmp x s) d =
  if existsb (fun y => (cmp x y <=? 0)%Z) s then last s d else x.
Proof.
  induction s as [|y s IH]; [reflexivity|].
  simpl Js.insert. simpl existsb.
  destruct (cmp x y <=? 0)%Z; [reflexivity|].
  simpl orb. change (last (y :: Js.insert cmp x s) d)
    with (match Js.insert cmp x s with [] => y | _ :: _ => last (Js.insert cmp x s) d end).
  destruct (Js.insert cmp x s) as [|z t] eqn:Hi.
  - destruct s as [|y' s']; simpl in Hi; [discriminate|].
    destruct (cmp x y' <=? 0)%Z; discriminate.
  - rewrite IH. destruct s as [|y' s']; reflexivity.
Qed.

(** The stable sort puts last the last of the entries of least count. *)
Lemma last_sort l d :
  match l with
  | [] => True
  | _ :: _ => lastLeast (last (Js.stableSort byCount l) d) l
  end.
Proof.
  induction l as [|x l IH]; [exact I|].
  simpl Js.stableSort. fold (Js.stableSort byCount l). rewrite last_insert.
  destruct l as [|x' l'].
  - simpl. exists [], []. repeat split; constructor.
  - set (l := x' :: l') in *.
    destruct IH as (l1 & l2 & Hl & H1 & H2).
    set (z := last (Js.stableSort byCount l) d) in *.
    assert (Hmin : Forall (fun y => count (snd z) <= count (snd y)) l).
    { rewrite Hl. apply Forall_app. split; [exact H1|].
      constructor; [lia|]. eapply Forall_impl; [|exact H2]. simpl. intros; lia. }
    destruct (existsb (fun y => (byCount x y <=? 0)%Z) (Js.stableSort byCount l)) eqn:He.
    + apply existsb_exists in He as (y & Hy & Hxy).
      apply Z.leb_le, byCount_le in Hxy.
      apply (Permutation_in _ (stableSort_perm byCount l)) in Hy.
      rewrite Forall_forall in Hmin. specialize (Hmin y Hy).
      exists (x :: l1), l2. rewrite Hl. repeat split; [|exact H2].
      constructor; [lia | exact H1].
    + exists [], l. repeat split; [constructor|].
      apply Forall_forall. intros y Hy.
      apply (Permutation_in _ (Permutation_sym (stableSort_perm byCount l))) in Hy.
      destruct (Nat.lt_ge_cases (count (snd x)) (count (snd y))) as [|Hge]; [assumption|].
      apply byCount_le, Z.leb_le in Hge.
      assert (Ht : existsb (fun y => (byCount x y <=? 0)%Z) (Js.stableSort byCount l) = true)
        by (apply existsb_exists; now exists y).
      congruence.
Qed.

(** ** The order of the keys of the count object *)

Lemma filter_twice {A : Type} (f g : A -> bool) l :
  filter f (filter g l) = filter (fun x => g x && f x) l.
Proof.
  induction l as [|x l IH]; simpl; [reflexivity|].
  destruct (g x); simpl; [destruct (f x)|]; now rewrite IH.
Qed.

Lemma existsb_keys {V : Type} b (o : Js.Object V) :
  existsb (String.eqb b) (Js.keys o) =
  match Js.getOwn b o with Some _ => true | None => false end.
Proof.
  induction o as [|[k v] o IH]; simpl; [reflexivity|].
  rewrite (String.eqb_sym b k). now destruct (k =? b)%string.
Qed.

Lemma knownBands_cons e l :
  knownBands (e :: l) =
  if known (band e)
  then band e :: filter (fun y => negb (y =? band e)%string) (knownBands l)
  else knownBands l.
Proof. unfold knownBands, knownEpisodes. simpl. now destruct (known (band e)). Qed.

Lemma keyBefore_trans a b c : keyBefore a b -> keyBefore b c -> keyBefore a c.
Proof.
  unfold keyBefore.
  destruct (Js.arrayIndex a), (Js.arrayIndex b), (Js.arrayIndex c); try tauto; lia.
Qed.

Lemma keyBefore_plain a b : Js.arrayIndex b = None -> keyBefore a b.
Proof. intros H. unfold keyBefore. rewrite H. now destruct (Js.arrayIndex a). Qed.

Section KeyOrder.
Context {V : Type}.
Implicit Types (o : Js.Object V) (k : string) (v : V).

Lemma keys_insertIndex n k v o :
  Js.arrayIndex k = Some n ->
  StronglySorted keyBefore (Js.keys o) ->
  StronglySorted keyBefore (Js.keys (Js.insertIndex n k v o))
  /\ Permutation (Js.keys (Js.insertIndex n k v o)) (k :: Js.keys o).
Proof.
  intros Hk. induction o as [|[k' v'] o IH]; intros Hs.
  - simpl. split; [repeat constructor | reflexivity].
  - simpl in Hs. inversion Hs as [|? ? Hs' Hall]; subst.
    assert (Hfront : keyBefore k k' ->
              StronglySorted keyBefore (k :: k' :: Js.keys o)).
    { intros Hkk. constructor; [exact Hs|]. constructor; [exact Hkk|].
      eapply Forall_impl; [|exact Hall]. intros y Hy.
      now apply keyBefore_trans with k'. }
    cbn [Js.insertIndex]. destruct (Js.arrayIndex k') as [m|] eqn:Hk'.
    + destruct (N.ltb_spec m n) as [Hlt|Hge].
      * destruct (IH Hs') as [Hsorted Hperm]. cbn [Js.keys map fst].
        split.
        -- constructor; [exact Hsorted|].
           apply (Permutation_Forall (Permutation_sym Hperm)).
           constructor; [|exact Hall].
           unfold keyBefore. rewrite Hk', Hk. lia.
        -- fold (Js.keys (Js.insertIndex n k v o)). rewrite Hperm. apply perm_swap.
      * split; [|reflexivity]. apply Hfront.
        unfold keyBefore. rewrite Hk, Hk'. exact Hge.
    + split; [|reflexivity]. apply Hfront.
      unfold keyBefore. now rewrite Hk, Hk'.
Qed.

Lemma StronglySorted_snoc k (ks : list string) :
  Js.arrayIndex k = None ->
  StronglySorted keyBefore ks -> StronglySorted keyBefore (ks ++ [k]).
Proof.
  intros Hk. induction 1 as [|x l Hs IH Hx]; simpl.
  - repeat constructor.
  - constructor; [exact IH|]. apply Forall_app. split; [exact Hx|].
    constructor; [now apply keyBefore_plain | constructor].
Qed.

Lemma keys_define_sorted k v o :
  StronglySorted keyBefore (Js.keys o) ->
  StronglySorted keyBefore (Js.keys (Js.define k v o)).
Proof.
  intros Hs. unfold Js.define. destruct (Js.getOwn k o).
  - now rewrite keys_replace.
  - destruct (Js.arrayIndex k) as [n|] eqn:Hk.
    + now apply keys_insertIndex.
    + rewrite keys_app. now apply StronglySorted_snoc.
Qed.

Lemma keys_set_sorted k v o :
  StronglySorted keyBefore (Js.keys o) ->
  StronglySorted keyBefore (Js.keys (Js.set k v o)).
Proof.
  unfold Js.set. destruct (k =? "__proto__")%string; [auto|].
  apply keys_define_sorted.
Qed.

(** The keys that are no array index, after a write. *)
Lemma keys_define_plain k v o :
  filter (fun b => negb (isIndex b)) (Js.keys (Js.define k v o)) =
  filter (fun b => negb (isIndex b)) (Js.keys o)
  ++ (if negb (isIndex k) && negb (existsb (String.eqb k) (Js.keys o))
      then [k] else []).
Proof.
  rewrite existsb_keys. destruct (Js.getOwn k o) as [v0|] eqn:Hg.
  - rewrite (keys_define_old _ _ _ _ Hg), andb_false_r. now rewrite app_nil_r.
  - cbn [negb]. rewrite andb_true_r. unfold isIndex at 3.
    destruct (Js.arrayIndex k) as [n|] eqn:Hk; cbn [negb].
    + destruct (define_new k v o Hg) as (o1 & o2 & Ho & ->). subst o.
      rewrite !keys_app. cbn [Js.keys map fst]. rewrite !filter_app. cbn [filter].
      unfold isIndex at 2. rewrite Hk. cbn [negb]. now rewrite app_nil_r.
    + rewrite (define_new_last _ _ _ Hg Hk), keys_app, filter_app.
      cbn [Js.keys map fst filter]. unfold isIndex at 2. now rewrite Hk.
Qed.

End KeyOrder.

Lemma existsb_keys_define {V : Type} y k v (o : Js.Object V) :
  existsb (String.eqb y) (Js.keys (Js.define k v o))
  = existsb (String.eqb y) (Js.keys o) || (y =? k)%string.
Proof.
  rewrite !existsb_keys, getOwn_define, (String.eqb_sym y k).
  destruct (k =? y)%string; [now rewrite orb_true_r|].
  now rewrite orb_false_r.
Qed.

Lemma keys_fold_sorted l : forall acc,
  StronglySorted keyBefore (Js.keys acc) ->
  StronglySorted keyBefore (Js.keys (fold_left count1 l acc)).
Proof.
  induction l as [|e l IH]; intros acc Hs; [exact Hs|].
  simpl. apply IH. unfold count1. destruct (known (band e)); [|exact Hs].
  now apply keys_set_sorted.
Qed.

(** A band whose name is no array index gets its place among the keys when
    it is first met. *)
Lemma keys_fold_plain l : forall acc,
  filter (fun b => negb (isIndex b)) (Js.keys (fold_left count1 l acc)) =
  filter (fun b => negb (isIndex b)) (Js.keys acc)
  ++ filter (fun b => negb (isIndex b) && keyed b
                      && negb (existsb (String.eqb b) (Js.keys acc)))
            (knownBands l).
Proof.
  induction l as [|e l IH]; intros acc.
  - simpl. now rewrite app_nil_r.
  - simpl fold_left. rewrite IH, knownBands_cons. unfold count1.
    destruct (known (band e)); [|reflexivity].
    cbn [filter]. rewrite filter_twice.
    unfold Js.set. fold (keyed (band e)).
    assert (Hk : negb (band e =? "__proto__")%string = keyed (band e)) by reflexivity.
    destruct (band e =? "__proto__")%string eqn:Hp; simpl in Hk; rewrite <- Hk.
    + rewrite andb_false_r. cbn [andb]. f_equal. apply filter_ext. intros y.
      destruct (String.eqb_spec y (band e)) as [->|]; [|reflexivity].
      unfold keyed. rewrite Hp. cbn [negb andb]. now rewrite andb_false_r.
    + rewrite andb_true_r, keys_define_plain, <- app_assoc. f_equal.
      assert (Hrest :
        filter (fun b => negb (isIndex b) && keyed b
                  && negb (existsb (String.eqb b)
                             (Js.keys (Js.define (band e)
                                (Js.increment (Js.get (band e) acc)) acc))))
               (knownBands l)
        = filter (fun x => negb (x =? band e)%string
                    && (negb (isIndex x) && keyed x
                        && negb (existsb (String.eqb x) (Js.keys acc))))
                 (knownBands l)).
      { apply filter_ext. intros y. rewrite existsb_keys_define, negb_orb.
        destruct (y =? band e)%string; cbn [negb andb];
          [now rewrite !andb_false_r | now rewrite andb_true_r]. }
      rewrite Hrest.
      destruct (negb (isIndex (band e))
                && negb (existsb (String.eqb (band e)) (Js.keys acc)));
        reflexivity.
Qed.

Lemma keys_bandCounts_sorted episodes :
  StronglySorted keyBefore (Js.keys (App.bandCounts episodes)).
Proof. rewrite bandCounts_fold. apply keys_fold_sorted. constructor. Qed.

Lemma keys_bandCounts_plain episodes :
  filter (fun b => negb (isIndex b)) (Js.keys (App.bandCounts episodes))
  = filter (fun b => negb (isIndex b)) (keyedBands episodes).
Proof.
  rewrite bandCounts_fold, keys_fold_plain. simpl.
  unfold keyedBands. rewrite filter_twice. apply filter_ext. intros b.
  rewrite andb_true_r. apply andb_comm.
Qed.

Lemma entry_known episodes x :
  plainNames episodes = true ->
  In x (Js.entries (StatsPage.bandMentions episodes)) ->
  In (fst x) (knownBands episodes)
  /\ snd x = Js.Num (mentions (fst x) episodes).
Proof.
  rewrite bandMentions_bandCounts. destruct x as [b v]. intros Hplain Hin.
  apply (plainNames_entry _ _ _ Hplain) in Hin as [Hpos ->]. simpl. split.
  - now apply In_knownBands, mentions_pos_iff.
  - reflexivity.
Qed.

Lemma knownBand_entry episodes b :
  plainNames episodes = true ->
  In b (knownBands episodes) ->
  In (b, Js.Num (mentions b episodes)) (Js.entries (StatsPage.bandMentions episodes)).
Proof.
  rewrite bandMentions_bandCounts. intros Hplain Hin.
  apply (plainNames_entry _ _ _ Hplain). split; [|reflexivity].
  apply mentions_pos_iff, In_knownBands, Hin.
Qed.

Lemma firstGreatest_spec x l :
  firstGreatest x l -> In x l /\ Forall (fun y => count (snd y) <= count (snd x)) l.
Proof.
  intros (l1 & l2 & -> & H1 & H2). split.
  - apply in_elt.
  - apply Forall_app. split.
    + eapply Forall_impl; [|exact H1]. simpl. intros; lia.
    + constructor; [lia | exact H2].
Qed.

Lemma lastLeast_spec x l :
  lastLeast x l -> In x l /\ Forall (fun y => count (snd x) <= count (snd y)) l.
Proof.
  intros (l1 & l2 & -> & H1 & H2). split.
  - apply in_elt.
  - apply Forall_app. split; [exact H1|].
    constructor; [lia|]. eapply Forall_impl; [|exact H2]. simpl. intros; lia.
Qed.

Lemma sortedBands_stats episodes :
  plainNames episodes = true ->
  StatsPage.sortedBands episodes
  = Js.InOrder (Js.stableSort byCount (Js.entries (StatsPage.bandMentions episodes))).
Proof.
  intros H. unfold StatsPage.sortedBands. rewrite bandMentions_bandCounts.
  apply sort_InOrder; [apply Consistent_byCount|].
  intros x y Hx Hy. now apply (minus_byCount episodes).
Qed.

(** C5, as the code has it, for an episode list where no known band has the
    name of a member of [Object.prototype].  With no known band the most
    and the least mentioned band are undefined.  Otherwise the most
    mentioned band is a known band of greatest mention count and the least
    mentioned band a known band of least mention count; among the bands of
    greatest count the most mentioned is the first in the order of the
    entries of the count object, and among the bands of least count the
    least mentioned is the last in that order.  In that order the bands
    whose name is an array index come first, by ascending number, and the
    other bands follow in the order in which they are first met. *)
Theorem superlatives (episodes : list Episode)
    (Hplain : plainNames episodes = true) :
  (knownEpisodes episodes = [] ->
     StatsPage.mostMentionedBand (StatsPage.stats episodes) = Js.Exactly None
     /\ StatsPage.leastMentionedBand (StatsPage.stats episodes) = Js.Exactly None)
  /\ (knownEpisodes episodes <> [] ->
      exists most least,
        StatsPage.mostMentionedBand (StatsPage.stats episodes)
          = Js.Exactly (Some most)
        /\ StatsPage.leastMentionedBand (StatsPage.stats episodes)
             = Js.Exactly (Some least)
        /\ In (fst most) (knownBands episodes)
        /\ snd most = Js.Num (mentions (fst most) episodes)
        /\ In (fst least) (knownBands episodes)
        /\ snd least = Js.Num (mentions (fst least) episodes)
        /\ (forall b, In b (knownBands episodes) ->
              mentions (fst least) episodes <= mentions b episodes
              /\ mentions b episodes <= mentions (fst most) episodes)
        /\ firstGreatest most (Js.entries (StatsPage.bandMentions episodes))
        /\ lastLeast least (Js.entries (StatsPage.bandMentions episodes)))
  /\ StronglySorted keyBefore (Js.keys (StatsPage.bandMentions episodes))
  /\ filter (fun b => negb (isIndex b)) (Js.keys (StatsPage.bandMentions episodes))
     = filter (fun b => negb (isIndex b)) (knownBands episodes).
Proof.
  split; [|split; [|split]].
  - intros Hnone.
    assert (Hc : StatsPage.bandMentions episodes = []).
    { rewrite bandMentions_bandCounts. apply bandCounts_nil_iff.
      now apply keyedBands_nil. }
    unfold StatsPage.stats, StatsPage.sortedBands. rewrite Hc. split; reflexivity.
  - intros Hsome.
    assert (Hne : Js.entries (StatsPage.bandMentions episodes) <> []).
    { unfold Js.entries. rewrite bandMentions_bandCounts.
      intros Hnil. apply bandCounts_nil_iff in Hnil.
      rewrite (plainNames_keyedBands _ Hplain) in Hnil.
      apply Hsome. apply length_zero_iff_nil.
      unfold knownBands in Hnil.
      destruct (knownEpisodes episodes); [reflexivity | discriminate]. }
    pose proof (hd_sort (Js.entries (StatsPage.bandMentions episodes))) as Hhd.
    pose proof (last_sort (Js.entries (StatsPage.bandMentions episodes))) as Hlast.
    unfold StatsPage.stats.
    cbn [StatsPage.mostMentionedBand StatsPage.leastMentionedBand].
    rewrite (sortedBands_stats _ Hplain). cbn [Js.index Js.items].
    destruct (Js.stableSort byCount (Js.entries (StatsPage.bandMentions episodes)))
      as [|most s] eqn:Hs; [contradiction|].
    specialize (Hlast most).
    destruct (Js.entries (StatsPage.bandMentions episodes)) as [|x0 rest] eqn:He;
      [contradiction|].
    rewrite <- He in *.
    exists most, (last (most :: s) most).
    destruct (firstGreatest_spec _ _ Hhd) as [Hin1 Hmax].
    destruct (lastLeast_spec _ _ Hlast) as [Hin2 Hmin].
    destruct (entry_known _ _ Hplain Hin1) as [Hk1 Hm1].
    destruct (entry_known _ _ Hplain Hin2) as [Hk2 Hm2].
    rewrite at_0, (at_last _ most).
    rewrite Forall_forall in Hmin, Hmax.
    split; [reflexivity|]. split; [reflexivity|].
    split; [exact Hk1|]. split; [exact Hm1|].
    split; [exact Hk2|]. split; [exact Hm2|].
    split.
    { intros b Hb. apply (knownBand_entry _ _ Hplain) in Hb.
      pose proof (Hmin _ Hb) as H1. pose proof (Hmax _ Hb) as H2.
      rewrite Hm2 in H1. rewrite Hm1 in H2. simpl in H1, H2. split; assumption. }
    split; [exact Hhd | exact Hlast].
  - rewrite bandMentions_bandCounts. apply keys_bandCounts_sorted.
  - rewrite bandMentions_bandCounts, keys_bandCounts_plain.
    now rewrite (plainNames_keyedBands _ Hplain).
Qed.

Lemma superlatives_witness :
  let episodes := [ep "1" "Beck"; ep "2" "Wilco"; ep "3" "311"; ep "4" "Wilco"] in
  (knownEpisodes episodes = [] ->
     StatsPage.mostMentionedBand (StatsPage.stats episodes) = Js.Exactly None
     /\ StatsPage.leastMentionedBand (StatsPage.stats episodes) = Js.Exactly None)
  /\ (knownEpisodes episodes <> [] ->
      exists most least,
        StatsPage.mostMentionedBand (StatsPage.stats episodes)
          = Js.Exactly (Some most)
        /\ StatsPage.leastMentionedBand (StatsPage.stats episodes)
             = Js.Exactly (Some least)
        /\ In (fst most) (knownBands episodes)
        /\ snd most = Js.Num (mentions (fst most) episodes)
        /\ In (fst least) (knownBands episodes)
        /\ snd least = Js.Num (mentions (fst least) episodes)
        /\ (forall b, In b (knownBands episodes) ->
              mentions (fst least) episodes <= mentions b episodes
              /\ mentions b episodes <= mentions (fst most) episodes)
        /\ firstGreatest most (Js.entries (StatsPage.bandMentions episodes))
        /\ lastLeast least (Js.entries (StatsPage.bandMentions episodes)))
  /\ StronglySorted keyBefore (Js.keys (StatsPage.bandMentions episodes))
  /\ filter (fun b => negb (isIndex b)) (Js.keys (StatsPage.bandMentions episodes))
     = filter (fun b => negb (isIndex b)) (knownBands episodes).
Proof.
  apply (superlatives [ep "1" "Beck"; ep "2" "Wilco"; ep "3" "311"; ep "4" "Wilco"]).
  reflexivity.
Defined.

(** C5 fails on two bands mentioned once each: the least mentioned band is
    the one met last, not the one met first, being the last entry of the
    stably sorted list.  And when the band met last has a name that is an
    array index, here 311, it is the most mentioned of the two: the count
    object lists such a key before the others. *)
Lemma superlatives_ties :
  (let episodes := [ep "1" "Beck"; ep "2" "Wilco"] in
   knownBands episodes = ["Beck"; "Wilco"]
   /\ mentions "Beck" episodes = 1
   /\ mentions "Wilco" episodes = 1
   /\ StatsPage.leastMentionedBand (StatsPage.stats episodes)
      = Js.Exactly (Some ("Wilco", Js.Num 1)))
  /\ (let episodes := [ep "1" "Wilco"; ep "2" "311"] in
      knownBands episodes = ["Wilco"; "311"]
      /\ mentions "Wilco" episodes = 1
      /\ mentions "311" episodes = 1
      /\ StatsPage.mostMentionedBand (StatsPage.stats episodes)
         = Js.Exactly (Some ("311", Js.Num 1))).
Proof. repeat split. Qed.
(** ** The filtered list *)

Section FindIndex.
Context {A : Type} (p : A -> bool).

Lemma findIndex_bound l : (-1 <= Js.findIndex p l < Z.of_nat (length l))%Z.
Proof.
  induction l as [|x l IH]; simpl Js.findIndex; simpl length; [lia|].
  destruct (p x); [lia|].
  destruct (Z.ltb_spec (Js.findIndex p l) 0); lia.
Qed.

Lemma findIndex_none l : existsb p l = false -> Js.findIndex p l = (-1)%Z.
Proof.
  induction l as [|x l IH]; simpl; [reflexivity|].
  destruct (p x); simpl; [discriminate|].
  intros H. now rewrite (IH H).
Qed.

(** The index of an element that satisfies [p] is the index [findIndex]
    returns exactly when no element before it satisfies [p]. *)
Lemma findIndex_at l1 x l2 :
  p x = true ->
  (Js.findIndex p (l1 ++ x :: l2) =? Z.of_nat (length l1))%Z = negb (existsb p l1).
Proof.
  intros Hx. induction l1 as [|y l1 IH]; simpl app; simpl Js.findIndex.
  - now rewrite Hx.
  - simpl existsb. simpl length. destruct (p y); simpl orb.
    + apply Z.eqb_neq. lia.
    + pose proof (findIndex_bound (l1 ++ x :: l2)) as Hb.
      destruct (Z.ltb_spec (Js.findIndex p (l1 ++ x :: l2)) 0) as [Hlt|Hge].
      * rewrite <- IH. replace (Js.findIndex p (l1 ++ x :: l2)) with (-1)%Z by lia.
        transitivity false; [apply Z.eqb_neq; lia | symmetry; apply Z.eqb_neq; lia].
      * rewrite <- IH.
        destruct (Z.eqb_spec (Js.findIndex p (l1 ++ x :: l2)) (Z.of_nat (length l1)));
          [apply Z.eqb_eq | apply Z.eqb_neq]; lia.
Qed.

End FindIndex.

(** In an array of fresh objects, looking for a value goes by the values
    alone, and the index of an object is its address. *)
Lemma findIndex_combine {A : Type} (p : A -> bool) l : forall s,
  Js.findIndex (fun o : Js.Ref A => p (Js.deref o)) (combine (seq s (length l)) l)
  = Js.findIndex p l.
Proof.
  induction l as [|x l IH]; intros s; [reflexivity|].
  cbn [length seq combine Js.findIndex].
  unfold Js.deref at 1. cbn [snd]. now rewrite IH.
Qed.

Lemma findIndex_address {A : Type} (l : list A) : forall s i,
  s <= i < s + length l ->
  Js.findIndex (fun o : Js.Ref A => fst o =? i) (combine (seq s (length l)) l)
  = Z.of_nat (i - s).
Proof.
  induction l as [|x l IH]; intros s i Hi; simpl in *; [lia|].
  destruct (Nat.eqb_spec s i) as [->|Hne].
  - now rewrite Nat.sub_diag.
  - rewrite (IH (S s) i) by lia.
    destruct (Z.ltb_spec (Z.of_nat (i - S s)) 0); lia.
Qed.

Lemma indexOf_allocate {A : Type} (l1 : list A) x l2 :
  Js.indexOf (length l1, x) (Js.allocate (l1 ++ x :: l2)) = Z.of_nat (length l1).
Proof.
  unfold Js.indexOf, Js.allocate. simpl fst.
  rewrite findIndex_address; [f_equal; lia|].
  rewrite length_app. simpl. lia.
Qed.

Lemma existsb_map {A B : Type} (f : A -> B) (p : B -> bool) l :
  existsb p (map f l) = existsb (fun x => p (f x)) l.
Proof. induction l as [|x l IH]; simpl; [reflexivity | now rewrite IH]. Qed.

(** The two filters of the second revision, on the part [l] of the array
    that follows [pre]. *)
Lemma filteredEpisodes_from searchTerm l : forall pre,
  map Js.deref
    (filter
       (fun episode : Js.Ref Episode =>
          (Js.findIndex
             (fun e => (id (Js.deref e) =? id (Js.deref episode))%string)
             (Js.allocate (pre ++ l))
           =? Js.indexOf episode (Js.allocate (pre ++ l)))%Z)
       (filter
          (fun episode : Js.Ref Episode =>
             Js.includes (Js.toLowerCase (band (Js.deref episode)))
                         (Js.toLowerCase searchTerm))
          (combine (seq (length pre) (length l)) l)))
  = firstOfEachId (map id pre) (matches searchTerm) l.
Proof.
  induction l as [|e l IH]; intros pre; [reflexivity|].
  specialize (IH (pre ++ [e])).
  rewrite <- app_assoc, length_app, map_app in IH.
  cbn [app length map] in IH. rewrite Nat.add_1_r in IH.
  set (keep := fun episode : Js.Ref Episode =>
          (Js.findIndex
             (fun e0 => (id (Js.deref e0) =? id (Js.deref episode))%string)
             (Js.allocate (pre ++ e :: l))
           =? Js.indexOf episode (Js.allocate (pre ++ e :: l)))%Z) in *.
  set (m := fun episode : Js.Ref Episode =>
             Js.includes (Js.toLowerCase (band (Js.deref episode)))
                         (Js.toLowerCase searchTerm)) in *.
  cbn [length seq combine filter firstOfEachId].
  change (m (length pre, e)) with (matches searchTerm e).
  destruct (matches searchTerm e); cbn [andb]; [|exact IH].
  cbn [filter].
  replace (keep (length pre, e))
    with (negb (existsb (fun i => (i =? id e)%string) (map id pre))).
  - destruct (negb (existsb (fun i => (i =? id e)%string) (map id pre)));
      [cbn [map]; f_equal|]; exact IH.
  - unfold keep. rewrite indexOf_allocate. unfold Js.allocate.
    cbn [Js.deref snd].
    rewrite (findIndex_combine (fun e' => (id e' =? id e)%string)).
    rewrite findIndex_at by apply String.eqb_refl.
    now rewrite existsb_map.
Qed.

(** The filtered list of the second revision: the episodes that match, the
    first of each id in [episodes] only. *)
Lemma filteredEpisodes_firstOfEachId episodes searchTerm :
  Revised.filteredEpisodes episodes searchTerm =
  firstOfEachId [] (matches searchTerm) episodes.
Proof. exact (filteredEpisodes_from searchTerm episodes []). Qed.

Section FirstOfEachId.
Context (p : Episode -> bool).

Lemma firstOfEachId_In l : forall seen e,
  In e (firstOfEachId seen p l) <->
  exists l1 l2,
    l = l1 ++ e :: l2
    /\ ~ In (id e) (seen ++ map id l1)
    /\ p e = true.
Proof.
  induction l as [|x l IH]; intros seen e.
  - simpl. split; [tauto|]. intros ([|? ?] & l2 & H & _); discriminate.
  - cbn [firstOfEachId].
    assert (Hseen : existsb (fun i => (i =? id x)%string) seen = true <-> In (id x) seen).
    { rewrite existsb_exists. split.
      - intros (i & Hi & Heq). apply String.eqb_eq in Heq. now subst.
      - intros Hi. exists (id x). split; [assumption | apply String.eqb_refl]. }
    assert (Hrest : In e (firstOfEachId (seen ++ [id x]) p l) <->
                    exists l1 l2, x :: l = (x :: l1) ++ e :: l2
                      /\ ~ In (id e) (seen ++ map id (x :: l1)) /\ p e = true).
    { rewrite IH. split; intros (l1 & l2 & Hl & Hid & Hp); exists l1, l2.
      - subst l. repeat split; [|assumption].
        simpl map. now rewrite <- app_assoc in Hid.
      - injection Hl as Hl. repeat split; [assumption| |assumption].
        simpl map in Hid. now rewrite <- app_assoc. }
    assert (Hsplit : (exists l1 l2, x :: l = l1 ++ e :: l2
                        /\ ~ In (id e) (seen ++ map id l1) /\ p e = true)
                     <-> (x = e /\ ~ In (id e) seen /\ p e = true)
                         \/ (exists l1 l2, x :: l = (x :: l1) ++ e :: l2
                               /\ ~ In (id e) (seen ++ map id (x :: l1))
                               /\ p e = true)).
    { split.
      - intros ([|y l1] & l2 & Hl & Hid & Hp).
        + left. injection Hl as -> _. simpl in Hid. rewrite app_nil_r in Hid. tauto.
        + right. injection Hl as <- Hl. subst l. exists l1, l2. tauto.
      - intros [(-> & Hid & Hp) | (l1 & l2 & Hl & Hid & Hp)].
        + exists [], l. simpl. rewrite app_nil_r. tauto.
        + now exists (x :: l1), l2. }
    rewrite Hsplit, <- Hrest.
    destruct (p x) eqn:Hpx; cbn [andb].
    + destruct (existsb (fun i => (i =? id x)%string) seen) eqn:He; cbn [negb].
      * split; [tauto|]. intros [(-> & Hid & _) | H]; [|assumption].
        exfalso. apply Hid. now apply Hseen.
      * simpl. split.
        -- intros [->|H]; [left | tauto].
           repeat split; [|assumption]. intros Hin. apply Hseen in Hin. congruence.
        -- intros [(-> & _) | H]; tauto.
    + split; [tauto|]. intros [(-> & _ & Hp) | H]; [congruence | assumption].
Qed.

Lemma firstOfEachId_Subsequence l : forall seen,
  Subsequence (firstOfEachId seen p l) l.
Proof.
  induction l as [|x l IH]; intros seen; cbn [firstOfEachId]; [constructor|].
  destruct (p x && negb (existsb (fun i => (i =? id x)%string) seen));
    constructor; apply IH.
Qed.

Lemma firstOfEachId_unseen l seen e :
  In e (firstOfEachId seen p l) -> ~ In (id e) seen.
Proof.
  intros Hin. apply firstOfEachId_In in Hin as (l1 & l2 & _ & Hid & _).
  intros Hs. apply Hid, in_or_app. now left.
Qed.

Lemma firstOfEachId_NoDup l : forall seen,
  NoDup (map id (firstOfEachId seen p l)).
Proof.
  induction l as [|x l IH]; intros seen; cbn [firstOfEachId]; [constructor|].
  destruct (p x && negb (existsb (fun i => (i =? id x)%string) seen)); [|apply IH].
  cbn [map]. constructor; [|apply IH].
  intros Hin. apply in_map_iff in Hin as (e & Heq & Hin).
  apply firstOfEachId_unseen in Hin. apply Hin, in_or_app. right. left. now symmetry.
Qed.

(** A list that is already filtered is left as it is. *)
Lemma firstOfEachId_fixed l : forall seen,
  Forall (fun e => p e = true) l ->
  NoDup (map id l) ->
  (forall e, In e l -> ~ In (id e) seen) ->
  firstOfEachId seen p l = l.
Proof.
  induction l as [|x l IH]; intros seen Hp Hnd Hseen; cbn [firstOfEachId]; [reflexivity|].
  inversion Hp as [|? ? Hpx Hpl]; subst.
  cbn [map] in Hnd. inversion Hnd as [|? ? Hx Hnd']; subst.
  rewrite Hpx. cbn [andb].
  destruct (existsb (fun i => (i =? id x)%string) seen) eqn:He.
  - exfalso. apply existsb_exists in He as (i & Hi & Heq).
    apply String.eqb_eq in Heq. subst i. apply (Hseen x); [now left | assumption].
  - cbn [negb]. f_equal. apply IH; try assumption.
    intros e He' Hin. apply in_app_or in Hin as [Hin | [Heq | []]].
    + apply (Hseen e); [now right | assumption].
    + apply Hx. rewrite Heq. now apply in_map.
Qed.

Lemma firstOfEachId_Forall l : forall seen,
  Forall (fun e => p e = true) (firstOfEachId seen p l).
Proof.
  intros seen. apply Forall_forall. intros e Hin.
  apply firstOfEachId_In in Hin as (_ & _ & _ & _ & Hp). exact Hp.
Qed.

End FirstOfEachId.

(** C9: the filtered list of the second revision holds at most one episode
    per id; it is the episode list with some episodes left out, so in the
    order of the input; and an episode is in it exactly when it matches the
    search term and stands in the input where its id occurs for the first
    time. *)
Theorem filteredEpisodes_one_per_id (episodes : list Episode) (searchTerm : string) :
  NoDup (map id (Revised.filteredEpisodes episodes searchTerm))
  /\ Subsequence (Revised.filteredEpisodes episodes searchTerm) episodes
  /\ (forall e, In e (Revised.filteredEpisodes episodes searchTerm) <->
        exists l1 l2,
          episodes = l1 ++ e :: l2
          /\ ~ In (id e) (map id l1)
          /\ matches searchTerm e = true).
Proof.
  rewrite filteredEpisodes_firstOfEachId. split; [|split].
  - apply firstOfEachId_NoDup.
  - apply firstOfEachId_Subsequence.
  - intros e. apply firstOfEachId_In.
Qed.

(** C8: in both revisions, filtering the filtered list again with the same
    search term gives the filtered list. *)
Theorem filteredEpisodes_idempotent (episodes : list Episode) (searchTerm : string) :
  App.filteredEpisodes (App.filteredEpisodes episodes searchTerm) searchTerm
  = App.filteredEpisodes episodes searchTerm
  /\ Revised.filteredEpisodes (Revised.filteredEpisodes episodes searchTerm) searchTerm
     = Revised.filteredEpisodes episodes searchTerm.
Proof.
  split.
  - unfold App.filteredEpisodes. rewrite filter_twice. apply filter_ext.
    intros e. apply andb_diag.
  - rewrite !filteredEpisodes_firstOfEachId. apply firstOfEachId_fixed.
    + apply firstOfEachId_Forall.
    + apply firstOfEachId_NoDup.
    + intros e _ [].
Qed.


(** ** The groups *)

(** What [push] returns under a name that no member of [Object.prototype]
    has. *)
Lemma push_returns k e groups :
  Js.inherited k = false ->
  Revised.push k e groups =
  Js.Returned
    (Js.define k (orEmpty (Js.getOwn k groups) ++ [e])
       (Js.define k (orEmpty (Js.getOwn k groups)) groups)).
Proof.
  intros Hk. unfold Revised.push. rewrite (get_plain _ _ Hk).
  pose proof (keyed_plain _ Hk) as Hkeyed. unfold keyed in Hkeyed.
  unfold Js.set. destruct (k =? "__proto__")%string; [discriminate|].
  destruct (Js.getOwn k groups); reflexivity.
Qed.

(** Under the name of a member of [Object.prototype] that the groups do not
    hold themselves, [push] throws. *)
Lemma push_throws k e groups :
  Js.inherited k = true -> Js.getOwn k groups = None ->
  Revised.push k e groups = Js.TypeError.
Proof. intros Hk Hg. unfold Revised.push, Js.get. now rewrite Hg, Hk. Qed.

Lemma groupByBand_step groups e :
  (if negb (Js.truthy (band e)) || (band e =? "")%string
      || Js.includes (band e) "<" || Js.includes (band e) ">"
   then Revised.push "Unknown" e groups
   else Revised.push (band e) e groups)
  = Revised.push (bucketOf e) e groups.
Proof. rewrite unknown_guard. unfold bucketOf. now destruct (known (band e)). Qed.

Lemma bucket_cons k e l :
  bucket k (e :: l) = if (bucketOf e =? k)%string then e :: bucket k l else bucket k l.
Proof. reflexivity. Qed.

(** The groups after the episodes [l], from the groups [acc]. *)
Lemma forEach_groups l : forall acc,
  NoDup (Js.keys acc) ->
  (forall e, In e l -> Js.inherited (bucketOf e) = false) ->
  exists groups,
    JsConv.forEach (fun groups e => Revised.push (bucketOf e) e groups) l acc
    = Js.Returned groups
    /\ NoDup (Js.keys groups)
    /\ forall k,
         Js.getOwn k groups =
         match Js.getOwn k acc, bucket k l with
         | None, [] => None
         | o, b => Some (orEmpty o ++ b)
         end.
Proof.
  induction l as [|e l IH]; intros acc Hnd Hplain.
  - exists acc. repeat split; [assumption|]. intros k. simpl.
    destruct (Js.getOwn k acc); simpl; [now rewrite app_nil_r | reflexivity].
  - cbn [JsConv.forEach]. rewrite push_returns by (apply Hplain; now left).
    cbn [Js.bind].
    destruct (IH (Js.define (bucketOf e) (orEmpty (Js.getOwn (bucketOf e) acc) ++ [e])
                    (Js.define (bucketOf e) (orEmpty (Js.getOwn (bucketOf e) acc)) acc)))
      as (groups & Hret & Hnd' & Hget).
    { now do 2 apply NoDup_keys_define. }
    { intros e' He'. apply Hplain. now right. }
    exists groups. repeat split; [assumption | assumption |].
    intros k. rewrite Hget, !getOwn_define, bucket_cons.
    destruct (String.eqb_spec (bucketOf e) k) as [->|Hne].
    + cbn [orEmpty]. rewrite <- app_assoc. simpl app.
      destruct (Js.getOwn k acc); reflexivity.
    + reflexivity.
Qed.

(** The groups hold no member of [Object.prototype] themselves, so the
    first episode with the name of one makes the effect throw. *)
Lemma forEach_throws l : forall acc,
  (forall k, Js.inherited k = true -> Js.getOwn k acc = None) ->
  (exists e, In e l /\ Js.inherited (bucketOf e) = true) ->
  JsConv.forEach (fun groups e => Revised.push (bucketOf e) e groups) l acc
  = Js.TypeError.
Proof.
  induction l as [|e l IH]; intros acc Hacc (e' & He' & Hi); [destruct He'|].
  cbn [JsConv.forEach].
  destruct (Js.inherited (bucketOf e)) eqn:Hk.
  - rewrite push_throws; [reflexivity | exact Hk | now apply Hacc].
  - rewrite push_returns by exact Hk. cbn [Js.bind]. apply IH.
    + intros k Hik. rewrite !getOwn_define.
      destruct (String.eqb_spec (bucketOf e) k) as [Heq|]; [|now apply Hacc].
      rewrite Heq in Hk. congruence.
    + exists e'. split; [|exact Hi].
      destruct He' as [<-|]; [congruence | assumption].
Qed.

Lemma filter_partition {A : Type} (f : A -> bool) l :
  Permutation (filter f l ++ filter (fun x => negb (f x)) l) l.
Proof.
  induction l as [|x l IH]; simpl; [constructor|].
  destruct (f x); simpl.
  - now constructor.
  - rewrite <- Permutation_middle. now constructor.
Qed.

(** The buckets of the names [ks], one after the other, hold each episode
    once when every episode has its name among [ks]. *)
Lemma concat_buckets ks : forall l,
  NoDup ks ->
  (forall e, In e l -> In (bucketOf e) ks) ->
  Permutation (concat (map (fun k => bucket k l) ks)) l.
Proof.
  induction ks as [|k ks IH]; intros l Hnd Hin.
  - destruct l as [|e l]; [constructor|]. destruct (Hin e (in_eq e l)).
  - inversion Hnd as [|? ? Hk Hnd']; subst. cbn [map concat].
    eapply Permutation_trans;
      [|apply (filter_partition (fun e => (bucketOf e =? k)%string) l)].
    apply Permutation_app_head.
    set (l' := filter (fun e => negb (bucketOf e =? k)%string) l).
    rewrite (map_ext_in _ (fun k' => bucket k' l')).
    + apply IH; [assumption|]. intros e He. apply filter_In in He as [He Hne].
      destruct (Hin e He) as [Heq|Hks]; [|assumption].
      rewrite <- Heq, String.eqb_refl in Hne. discriminate.
    + intros k' Hk'. unfold bucket, l'. rewrite filter_twice. apply filter_ext.
      intros e. destruct (String.eqb_spec (bucketOf e) k') as [->|Hne'].
      * destruct (String.eqb_spec k' k) as [->|]; [contradiction | reflexivity].
      * now rewrite andb_false_r.
Qed.

Lemma forEach_pointwise {A S : Type} (f g : S -> A -> Js.Outcome S) l : forall s,
  (forall s x, f s x = g s x) -> JsConv.forEach f l s = JsConv.forEach g l s.
Proof.
  induction l as [|x l IH]; intros s H; [reflexivity|].
  cbn [JsConv.forEach]. rewrite H. destruct (g s x); simpl; [now apply IH | reflexivity].
Qed.

Lemma In_bucket e k l : In e (bucket k l) <-> In e l /\ bucketOf e = k.
Proof. unfold bucket. rewrite filter_In, String.eqb_eq. reflexivity. Qed.

Lemma groupByBand_forEach l :
  Revised.groupByBand l
  = JsConv.forEach (fun groups e => Revised.push (bucketOf e) e groups) l Js.empty.
Proof.
  unfold Revised.groupByBand. apply forEach_pointwise.
  intros s e. apply groupByBand_step.
Qed.

Lemma plainNames_bucketOf l e :
  plainNames l = true -> In e l -> Js.inherited (bucketOf e) = false.
Proof.
  intros H He. unfold bucketOf. destruct (known (band e)) eqn:Hk; [|reflexivity].
  now apply (proj1 (plainNames_spec l) H).
Qed.

Lemma plainNames_false l :
  plainNames l = false ->
  exists e, In e l /\ Js.inherited (bucketOf e) = true.
Proof.
  unfold plainNames. induction l as [|e l IH]; [discriminate|].
  simpl. destruct (known (band e) && Js.inherited (band e)) eqn:Hk; simpl.
  - intros _. exists e. split; [now left|].
    apply andb_prop in Hk as [Hk Hi]. unfold bucketOf. now rewrite Hk.
  - intros H. destruct (IH H) as (e' & He' & Hi). exists e'. split; [now right | exact Hi].
Qed.

(** The groups of a list without the name of a member of
    [Object.prototype] among its known bands: own properties only. *)
Lemma groupByBand_getOwn l :
  plainNames l = true ->
  exists groups,
    Revised.groupByBand l = Js.Returned groups
    /\ NoDup (Js.keys groups)
    /\ forall k, Js.getOwn k groups
                 = match bucket k l with [] => None | b => Some b end.
Proof.
  intros Hplain.
  destruct (forEach_groups l Js.empty) as (groups & Hret & Hnd & Hget);
    [constructor | intros e He; now apply (plainNames_bucketOf l) |].
  exists groups. rewrite groupByBand_forEach. split; [exact Hret|].
  split; [exact Hnd|]. intros k. rewrite Hget. simpl.
  now destruct (bucket k l).
Qed.

Lemma groupByBand_throws l :
  plainNames l = false -> Revised.groupByBand l = Js.TypeError.
Proof.
  intros H. rewrite groupByBand_forEach. apply forEach_throws.
  - reflexivity.
  - now apply plainNames_false.
Qed.

(** C7, as the code has it, for a filtered list where no known band has the
    name of a member of [Object.prototype]: [groupByBand] returns, and its
    buckets partition the filtered list: the bucket under a name holds, in
    their order, exactly the episodes of that name, the name of an episode
    being its band when the band is known and Unknown otherwise; no bucket
    is empty and no name occurs twice; so every episode is in the bucket of
    its name and in no other, and the buckets together hold each episode of
    the list once. *)
Theorem groupByBand_partition (filteredEpisodes : list Episode)
    (Hplain : plainNames filteredEpisodes = true) :
  exists groups,
    Revised.groupByBand filteredEpisodes = Js.Returned groups
    /\ NoDup (Js.keys groups)
    /\ (forall k es, In (k, es) (Js.entries groups) <->
          es = bucket k filteredEpisodes /\ es <> [])
    /\ (forall e, In e filteredEpisodes ->
          exists es,
            Js.get (if known (band e) then band e else "Unknown") groups = Js.Own es
            /\ In e es)
    /\ (forall k es e, In (k, es) (Js.entries groups) -> In e es ->
          k = (if known (band e) then band e else "Unknown"))
    /\ Permutation (concat (map snd (Js.entries groups))) filteredEpisodes.
Proof.
  destruct (groupByBand_getOwn filteredEpisodes Hplain) as (groups & Hret & Hnd & Hget').
  assert (Hentry : forall k es, In (k, es) (Js.entries groups) <->
                     es = bucket k filteredEpisodes /\ es <> []).
  { intros k es. unfold Js.entries. split.
    - intros Hin. apply (In_getOwn _ _ _ Hnd) in Hin. rewrite Hget' in Hin.
      destruct (bucket k filteredEpisodes); [discriminate|].
      injection Hin as <-. split; [reflexivity | discriminate].
    - intros [-> Hne]. apply getOwn_Some_In. rewrite Hget'.
      destruct (bucket k filteredEpisodes); [contradiction | reflexivity]. }
  assert (Hplaced : forall e, In e filteredEpisodes ->
                      exists es, Js.getOwn (bucketOf e) groups = Some es /\ In e es).
  { intros e He. exists (bucket (bucketOf e) filteredEpisodes).
    assert (Hb : In e (bucket (bucketOf e) filteredEpisodes)) by now apply In_bucket.
    rewrite Hget'. destruct (bucket (bucketOf e) filteredEpisodes); [contradiction|].
    now split. }
  exists groups. split; [|split; [|split; [|split; [|split]]]].
  - exact Hret.
  - exact Hnd.
  - exact Hentry.
  - intros e He. destruct (Hplaced e He) as (es & Hes & Hin).
    exists es. split; [|exact Hin]. now apply get_Own.
  - intros k es e Hin He. apply Hentry in Hin as [-> _].
    apply In_bucket in He as [_ <-]. reflexivity.
  - unfold Js.entries.
    replace (map snd groups) with (map (fun k => bucket k filteredEpisodes) (Js.keys groups)).
    + apply concat_buckets; [exact Hnd|].
      intros e He. destruct (Hplaced e He) as (es & Hes & _).
      apply getOwn_Some_In in Hes. unfold Js.keys.
      change (bucketOf e) with (fst (bucketOf e, es)). now apply in_map.
    + unfold Js.keys. rewrite map_map. apply map_ext_in.
      intros [k es] Hin. apply Hentry in Hin as [-> _]. reflexivity.
Qed.

Lemma groupByBand_partition_witness :
  let filteredEpisodes := [ep "1" "Wilco"; ep "2" "<none>"; ep "3" "Wilco"] in
  exists groups,
    Revised.groupByBand filteredEpisodes = Js.Returned groups
    /\ NoDup (Js.keys groups)
    /\ (forall k es, In (k, es) (Js.entries groups) <->
          es = bucket k filteredEpisodes /\ es <> [])
    /\ (forall e, In e filteredEpisodes ->
          exists es,
            Js.get (if known (band e) then band e else "Unknown") groups = Js.Own es
            /\ In e es)
    /\ (forall k es e, In (k, es) (Js.entries groups) -> In e es ->
          k = (if known (band e) then band e else "Unknown"))
    /\ Permutation (concat (map snd (Js.entries groups))) filteredEpisodes.
Proof.
  apply (groupByBand_partition [ep "1" "Wilco"; ep "2" "<none>"; ep "3" "Wilco"]).
  reflexivity.
Defined.

(** C7 fails on an episode whose band has the name of a member of
    [Object.prototype]: the value read under the name is the inherited
    member, which has no [push], and the effect throws before it stores any
    group; the groups the list is drawn from stay empty. *)
Lemma groupByBand_member_name :
  Revised.groupByBand [ep "1" "Wilco"; ep "2" "constructor"] = Js.TypeError
  /\ Revised.groupByBand [ep "1" "__proto__"] = Js.TypeError
  /\ Revised.bandGroups [ep "1" "Wilco"; ep "2" "constructor"] = Js.empty.
Proof. repeat split. Qed.

(** ** The example of the specification

    Two episodes of Wilco around one whose band is a marker: Wilco is counted
    twice, the known-bands percentage is 1 band over 2 countable episodes,
    and the groups are the two Wilco episodes and the unknown one. *)
Example example_bandCounts :
  App.bandCounts [ep "1" "Wilco"; ep "2" "<unknown>"; ep "3" "Wilco"]
  = [("Wilco", Js.Num 2)].
Proof. reflexivity. Qed.

Example example_knownBandsPercentage :
  sameNumber
    (App.knownBandsPercentage [ep "1" "Wilco"; ep "2" "<unknown>"; ep "3" "Wilco"])
    (Js.Finite 50).
Proof. reflexivity. Qed.

Example example_groupByBand :
  Revised.groupByBand [ep "1" "Wilco"; ep "2" "<unknown>"; ep "3" "Wilco"]
  = Js.Returned [("Wilco", [ep "1" "Wilco"; ep "3" "Wilco"]);
                 ("Unknown", [ep "2" "<unknown>"])].
Proof. reflexivity. Qed.

Example example_filteredEpisodes :
  Revised.filteredEpisodes
    [ep "1" "Wilco"; ep "2" "Beck"; ep "1" "Wilco"; ep "3" "WILCO"] "wil"
  = [ep "1" "Wilco"; ep "3" "WILCO"].
Proof. reflexivity. Qed.

Example example_stats :
  StatsPage.render [ep "1" "Beck"; ep "2" "Wilco"; ep "3" "Wilco"]
  = Js.Returned
      {| StatsPage.mostLine := Js.Exactly ("Wilco", Js.Num 2);
         StatsPage.leastLine := Js.Exactly ("Beck", Js.Num 1);
         StatsPage.newBandLine := Js.Finite (100 # 2);
         StatsPage.lastLine := (Some "Beck", "2023-01-01") |}.
Proof. reflexivity. Qed.

(** What the count object holds under the name of a member of
    [Object.prototype]: the text of the member followed by one [1] per
    mention; under [__proto__] nothing. *)
Example example_member_names :
  App.bandCounts [ep "1" "constructor"; ep "2" "Wilco"; ep "3" "constructor";
                  ep "4" "__proto__"]
  = [("constructor", Js.Text "constructor" 2); ("Wilco", Js.Num 1)].
Proof. reflexivity. Qed.

(** * Further properties of the component *)

(** ** The stats page *)

Lemma sort_InSomeOrder {A : Type} (comparator : A -> A -> option Z) l l' :
  Js.sort comparator l = Js.InSomeOrder l' -> l' = l /\ 1 < length l.
Proof.
  unfold Js.sort. destruct (Nat.leb_spec (length l) 1) as [|Hlt]; simpl.
  - discriminate.
  - destruct (Js.consistentOn comparator l); [discriminate|].
    intros [= <-]. now split.
Qed.

Lemma find_known_split (p : Episode -> bool) l e :
  find p l = Some e <->
  exists l1 l2, l = l1 ++ e :: l2 /\ filter p l1 = [] /\ p e = true.
Proof.
  induction l as [|x l IH]; simpl.
  - split; [discriminate|]. intros ([|? ?] & l2 & H & _); discriminate.
  - destruct (p x) eqn:Hx.
    + split.
      * intros [= ->]. now exists [], l.
      * intros ([|y l1] & l2 & Hl & Hf & He).
        -- now injection Hl as ->.
        -- injection Hl as -> _. simpl in Hf. rewrite Hx in Hf. discriminate.
    + rewrite IH. split.
      * intros (l1 & l2 & -> & Hf & He). exists (x :: l1), l2.
        simpl. rewrite Hx. tauto.
      * intros ([|y l1] & l2 & Hl & Hf & He).
        -- injection Hl as -> _. congruence.
        -- injection Hl as -> ->. simpl in Hf. rewrite Hx in Hf.
           now exists l1, l2.
Qed.

(** X1: rendering the stats page throws exactly when the count object is
    empty, that is when no episode has a known band other than
    [__proto__]. *)
Theorem render_throws_iff (episodes : list Episode) :
  StatsPage.render episodes = Js.TypeError <-> keyedBands episodes = [].
Proof.
  pose proof (length_sortedBands episodes) as Hlen.
  unfold StatsPage.render, StatsPage.stats.
  cbn [StatsPage.mostMentionedBand StatsPage.leastMentionedBand
       StatsPage.newBandPercentage StatsPage.lastMentionedBand].
  destruct (StatsPage.sortedBands episodes) as [[|x s]|l] eqn:Hs.
  - split; [|reflexivity]. intros _. apply length_zero_iff_nil.
    rewrite <- Hlen. reflexivity.
  - cbn [Js.index Js.items]. rewrite at_0, (at_last _ x).
    cbn [hd_error StatsPage.superlative Js.bind].
    split; [discriminate|]. intros H. rewrite H in Hlen. discriminate.
  - cbn [Js.index StatsPage.superlative Js.bind]. split; [discriminate|].
    intros H. rewrite H in Hlen. cbn [Js.items length] in Hlen.
    apply sort_InSomeOrder in Hs as [_ Hs]. unfold Js.entries in Hs.
    rewrite bandMentions_bandCounts in Hs.
    pose proof (length_keys_bandCounts episodes) as Hk.
    unfold Js.keys in Hk. rewrite length_map, H in Hk. simpl in Hk. lia.
Qed.

(** X2: the last mention of the stats is the first episode of the list
    whose band is known, no episode before it having a known band; there is
    none exactly when no episode has a known band. *)
Theorem lastMentionedBand_first_known (episodes : list Episode) :
  (forall e,
     StatsPage.lastMentionedBand (StatsPage.stats episodes) = Some e <->
     exists l1 l2,
       episodes = l1 ++ e :: l2 /\ knownEpisodes l1 = [] /\ known (band e) = true)
  /\ (StatsPage.lastMentionedBand (StatsPage.stats episodes) = None <->
      knownEpisodes episodes = []).
Proof.
  unfold StatsPage.stats. cbn [StatsPage.lastMentionedBand]. split.
  - intros e. apply (find_known_split (fun e => known (band e))).
  - split.
    + intros Hf. unfold knownEpisodes.
      destruct (filter (fun e => known (band e)) episodes) as [|x r] eqn:Hk;
        [reflexivity|].
      assert (Hin : In x (x :: r)) by now left.
      rewrite <- Hk in Hin. apply filter_In in Hin as [Hin Hx].
      apply (find_none _ _ Hf) in Hin. cbn beta in Hin.
      rewrite known_guard in Hin. congruence.
    + apply (find_filter_nil (fun e => known (band e))).
Qed.

Lemma Permutation_filter_length {A : Type} (f : A -> bool) l l' :
  Permutation l l' -> length (filter f l) = length (filter f l').
Proof.
  induction 1 as [|x l l' _ IH|x y l|l l' l'' _ IH1 _ IH2]; simpl.
  - reflexivity.
  - destruct (f x); simpl; now rewrite IH.
  - destruct (f x), (f y); reflexivity.
  - now rewrite IH1.
Qed.

Lemma length_filter_map {A B : Type} (g : A -> B) (f : B -> bool) l :
  length (filter f (map g l)) = length (filter (fun x => f (g x)) l).
Proof.
  induction l as [|x l IH]; simpl; [reflexivity|].
  destruct (f (g x)); simpl; now rewrite IH.
Qed.

Lemma isOne_held b n : Js.isOne (held b n) = negb (Js.inherited b) && (n =? 1).
Proof.
  unfold held. destruct (Js.inherited b); [reflexivity|].
  destruct n as [|[|n]]; reflexivity.
Qed.

(** X3: the new-band percentage is the number of the keys of the count
    object that hold the number 1, divided by the number of its keys, times
    100; the keys are the known bands other than [__proto__], and a key
    holds the number 1 when the band is mentioned once and its name is not
    the name of a member of [Object.prototype]. *)
Theorem newBandPercentage_formula (episodes : list Episode) :
  StatsPage.newBandPercentage (StatsPage.stats episodes) =
  Js.times100
    (Js.div (length (filter (fun b => negb (Js.inherited b)
                                      && (mentions b episodes =? 1))
                            (keyedBands episodes)))
            (length (keyedBands episodes))).
Proof.
  unfold StatsPage.stats. cbn [StatsPage.newBandPercentage].
  rewrite length_sortedBands. do 2 f_equal.
  unfold StatsPage.sortedBands.
  rewrite (Permutation_filter_length _ _ _ (sort_perm _ _)).
  rewrite bandMentions_bandCounts.
  rewrite <- (Permutation_filter_length _ _ _ (keys_bandCounts_perm episodes)).
  unfold Js.keys. rewrite length_filter_map. f_equal.
  apply filter_ext_in. intros [b c] Hin.
  apply bandCounts_entry in Hin as (_ & _ & ->). cbn [fst]. apply isOne_held.
Qed.

(** X4: the reduction of the stats page and the reduction of the tracker,
    which write the test of a known band in two ways, build the same count
    object on every episode list; so the ranking of the stats page is the
    tracker's list in count mode. *)
Theorem bandMentions_is_bandCounts (localeCompare : string -> string -> Z)
    (episodes : list Episode) :
  StatsPage.bandMentions episodes = App.bandCounts episodes
  /\ StatsPage.sortedBands episodes
     = App.sortedBands localeCompare by_count episodes.
Proof.
  assert (H : StatsPage.bandMentions episodes = App.bandCounts episodes)
    by now rewrite bandMentions_fold, bandCounts_fold.
  split; [exact H|].
  unfold StatsPage.sortedBands, App.sortedBands. now rewrite H.
Qed.

Lemma countUnder_bandCounts b episodes :
  countUnder (Js.get b (App.bandCounts episodes))
  = if Js.inherited b then 0 else mentions b episodes.
Proof.
  unfold Js.get. rewrite getOwn_bandCounts. unfold held.
  destruct (Js.inherited b) eqn:Hi.
  - destruct (keyed b && negb (mentions b episodes =? 0)); reflexivity.
  - rewrite (keyed_plain _ Hi). cbn [andb].
    destruct (Nat.eqb_spec (mentions b episodes) 0) as [->|]; reflexivity.
Qed.

Lemma mentions_app b l1 l2 : mentions b (l1 ++ l2) = mentions b l1 + mentions b l2.
Proof.
  unfold mentions, knownEpisodes. now rewrite !filter_app, length_app.
Qed.

(** X5: counting is additive: the number the count object holds under a
    name over two episode lists put end to end is the sum of the numbers it
    holds under it over each, where a name under which it holds no number
    (an absent key, or the text held under the name of a member of
    [Object.prototype]) counts for 0. *)
Theorem bandCounts_app (l1 l2 : list Episode) (b : string) :
  countUnder (Js.get b (App.bandCounts (l1 ++ l2)))
  = countUnder (Js.get b (App.bandCounts l1))
    + countUnder (Js.get b (App.bandCounts l2)).
Proof.
  rewrite !countUnder_bandCounts.
  destruct (Js.inherited b); [reflexivity | apply mentions_app].
Qed.

(** X6: a key of the count object is never the empty string nor a name that
    holds a marker: whatever the object holds itself under a name, the name
    is a known band with a positive number of mentions, and what is held is
    that number, or, under the name of a member of [Object.prototype], the
    text of the member followed by as many [1]. *)
Theorem bandCounts_get_known (episodes : list Episode) (b : string) (v : Js.Value)
    (H : Js.get b (App.bandCounts episodes) = Js.Own v) :
  known b = true
  /\ 0 < mentions b episodes
  /\ v = (if Js.inherited b then Js.Text b (mentions b episodes)
          else Js.Num (mentions b episodes)).
Proof.
  apply get_Own, getOwn_Some_In in H.
  apply bandCounts_entry in H as (_ & Hpos & ->).
  split; [|split; [exact Hpos | reflexivity]].
  apply mentions_pos_iff in Hpos as (e & _ & Hk & <-). exact Hk.
Qed.

Lemma bandCounts_get_known_witness :
  known "Wilco" = true
  /\ 0 < mentions "Wilco" [ep "1" "Wilco"; ep "2" "<unknown>"; ep "3" "Wilco"]
  /\ Js.Num 2
     = (if Js.inherited "Wilco"
        then Js.Text "Wilco"
               (mentions "Wilco" [ep "1" "Wilco"; ep "2" "<unknown>"; ep "3" "Wilco"])
        else Js.Num
               (mentions "Wilco" [ep "1" "Wilco"; ep "2" "<unknown>"; ep "3" "Wilco"])).
Proof.
  apply (bandCounts_get_known
           [ep "1" "Wilco"; ep "2" "<unknown>"; ep "3" "Wilco"] "Wilco" (Js.Num 2)).
  reflexivity.
Defined.

(** ** More on sorting *)

Lemma Consistent_constant {A : Type} : Consistent (fun _ _ : A => 0%Z).
Proof. repeat split; intros; lia. Qed.

Lemma stableSort_constant {A : Type} (l : list A) :
  Js.stableSort (fun _ _ => 0%Z) l = l.
Proof.
  induction l as [|x l IH]; simpl; [reflexivity|].
  fold (Js.stableSort (fun _ _ : A => 0%Z) l). rewrite IH. now destruct l.
Qed.

Section Stable.
Context {A : Type} (key : A -> Z) (cmp : A -> A -> Z).
Hypothesis cmp_key : forall x y, (cmp x y <= 0)%Z <-> (key y <= key x)%Z.

(** Inserting an element leaves the elements of each key in their order. *)
Lemma filter_key_insert c x l :
  filter (fun y => (key y =? c)%Z) (Js.insert cmp x l)
  = filter (fun y => (key y =? c)%Z) (x :: l).
Proof.
  induction l as [|y l IH]; [reflexivity|].
  cbn [Js.insert]. destruct (Z.leb_spec (cmp x y) 0) as [Hle|Hgt]; [reflexivity|].
  assert (Hxy : (key x < key y)%Z).
  { destruct (Z.lt_ge_cases (key x) (key y)) as [|Hge]; [assumption|].
    apply Z.ge_le_iff, Z.ge_le, cmp_key in Hge. lia. }
  cbn [filter] in IH |- *. rewrite IH.
  destruct (Z.eqb_spec (key y) c), (Z.eqb_spec (key x) c); try reflexivity. lia.
Qed.

Lemma filter_key_stableSort c l :
  filter (fun y => (key y =? c)%Z) (Js.stableSort cmp l)
  = filter (fun y => (key y =? c)%Z) l.
Proof.
  induction l as [|x l IH]; [reflexivity|].
  cbn [Js.stableSort fold_right]. fold (Js.stableSort cmp l).
  rewrite filter_key_insert. cbn [filter]. now rewrite IH.
Qed.

End Stable.

(** X7: in every mode the sorted band list holds the entries of the count
    object, none lost and none added, so each key once; in date mode it is
    the list of the entries as the object has them. *)
Theorem sortedBands_entries (localeCompare : string -> string -> Z)
    (sortBy : SortBy) (episodes : list Episode) :
  Permutation (Js.items (App.sortedBands localeCompare sortBy episodes))
              (Js.entries (App.bandCounts episodes))
  /\ NoDup (map fst (Js.items (App.sortedBands localeCompare sortBy episodes)))
  /\ App.sortedBands localeCompare by_date episodes
     = Js.InOrder (Js.entries (App.bandCounts episodes)).
Proof.
  assert (Hp : Permutation (Js.items (App.sortedBands localeCompare sortBy episodes))
                           (Js.entries (App.bandCounts episodes)))
    by apply sort_perm.
  split; [exact Hp|]. split.
  - apply (Permutation_NoDup (Permutation_sym (Permutation_map fst Hp))).
    apply bandCounts_NoDup.
  - unfold App.sortedBands.
    rewrite (sort_InOrder (fun _ _ => 0%Z)); [|apply Consistent_constant | reflexivity].
    now rewrite stableSort_constant.
Qed.

(** X8: the sort by count is stable: when no known band has the name of a
    member of [Object.prototype], the count-sorted list is in the order the
    standard fixes, and the bands of one count stand in it in the order the
    count object has them. *)
Theorem sortedBands_count_stable (localeCompare : string -> string -> Z)
    (episodes : list Episode)
    (Hplain : plainNames episodes = true) :
  exists l,
    App.sortedBands localeCompare by_count episodes = Js.InOrder l
    /\ forall c,
         filter (fun entry => count (snd entry) =? c) l
         = filter (fun entry => count (snd entry) =? c)
                  (Js.entries (App.bandCounts episodes)).
Proof.
  exists (Js.stableSort byCount (Js.entries (App.bandCounts episodes))).
  split; [now apply sortedBands_by_count|]. intros c.
  assert (Hext : forall l : list (string * Js.Value),
             filter (fun entry => count (snd entry) =? c) l
             = filter (fun entry => (Z.of_nat (count (snd entry)) =? Z.of_nat c)%Z) l).
  { intros l. apply filter_ext. intros entry.
    destruct (Nat.eqb_spec (count (snd entry)) c),
             (Z.eqb_spec (Z.of_nat (count (snd entry))) (Z.of_nat c));
      try reflexivity; lia. }
  rewrite !Hext.
  apply (filter_key_stableSort
           (fun entry : string * Js.Value => Z.of_nat (count (snd entry)))).
  intros x y. unfold byCount. lia.
Qed.

Lemma sortedBands_count_stable_witness :
  let episodes := [ep "1" "Beck"; ep "2" "Wilco"; ep "3" "Low"; ep "4" "Wilco"] in
  exists l,
    App.sortedBands codeUnitCompare by_count episodes = Js.InOrder l
    /\ forall c,
         filter (fun entry => count (snd entry) =? c) l
         = filter (fun entry => count (snd entry) =? c)
                  (Js.entries (App.bandCounts episodes)).
Proof.
  apply (sortedBands_count_stable codeUnitCompare
           [ep "1" "Beck"; ep "2" "Wilco"; ep "3" "Low"; ep "4" "Wilco"]).
  reflexivity.
Defined.

(** ** Loading the data *)

Lemma byDate_timeOf getTime a b :
  getTime (published a) <> None -> getTime (published b) <> None ->
  Load.byDate getTime a b = Some (timeOf getTime b - timeOf getTime a)%Z.
Proof.
  unfold Load.byDate, timeOf. intros Ha Hb.
  destruct (getTime (published b)); [|contradiction].
  destruct (getTime (published a)); [reflexivity | contradiction].
Qed.

Lemma Consistent_byTime getTime :
  Consistent (fun a b : Episode => (timeOf getTime b - timeOf getTime a)%Z).
Proof. repeat split; intros; lia. Qed.

Lemma consistentOn_NaN {A : Type} (comparator : A -> A -> option Z) l x :
  In x l -> comparator x x = None -> Js.consistentOn comparator l = false.
Proof.
  intros Hin Hx. unfold Js.consistentOn.
  destruct (forallb _ l) eqn:Hf; [|reflexivity].
  rewrite forallb_forall in Hf. specialize (Hf x Hin).
  rewrite forallb_forall in Hf. specialize (Hf x Hin).
  rewrite forallb_forall in Hf. specialize (Hf x Hin).
  unfold Js.isNumber in Hf. rewrite Hx in Hf. discriminate.
Qed.

(** X9: loading keeps every episode of the data.  When every date of the
    data parses, the loaded list is in the order the standard fixes: in
    order of time, no episode coming after an older one, with the episodes
    of one time in the order of the data.  When the data has two episodes
    at least and a date that does not parse, the comparator is not
    consistent and the order is the engine's choice. *)
Theorem sortedEpisodes_by_date (getTime : string -> option Z)
    (DATA : list Episode) :
  Permutation (Js.items (Load.sortedEpisodes getTime DATA)) DATA
  /\ (Forall (fun e => getTime (published e) <> None) DATA ->
      exists l,
        Load.sortedEpisodes getTime DATA = Js.InOrder l
        /\ StronglySorted (notOlder getTime) l
        /\ forall t,
             filter (fun e => (timeOf getTime e =? t)%Z) l
             = filter (fun e => (timeOf getTime e =? t)%Z) DATA)
  /\ (1 < length DATA ->
      (exists e, In e DATA /\ getTime (published e) = None) ->
      Load.sortedEpisodes getTime DATA = Js.InSomeOrder DATA).
Proof.
  split; [apply sort_perm|]. split.
  - intros H.
    exists (Js.stableSort (fun a b => (timeOf getTime b - timeOf getTime a)%Z) DATA).
    split; [|split].
    + unfold Load.sortedEpisodes. apply sort_InOrder; [apply Consistent_byTime|].
      rewrite Forall_forall in H. intros x y Hx Hy.
      apply byDate_timeOf; now apply H.
    + eapply StronglySorted_impl; [|apply stableSort_sorted, Consistent_byTime].
      intros x y Hxy. unfold inOrder in Hxy. unfold notOlder. lia.
    + intros t. apply (filter_key_stableSort (timeOf getTime)). intros x y. lia.
  - intros Hlen (e & Hin & He). unfold Load.sortedEpisodes, Js.sort.
    rewrite (consistentOn_NaN _ _ e Hin).
    + destruct (Nat.leb_spec (length DATA) 1); [lia | reflexivity].
    + unfold Load.byDate. now rewrite He.
Qed.

Lemma sortedEpisodes_by_date_witness :
  let DATA := [ep "1" "Wilco"; ep "2" "<unknown>"; ep "3" "Wilco"] in
  exists l,
    Load.sortedEpisodes dayOf DATA = Js.InOrder l
    /\ StronglySorted (notOlder dayOf) l
    /\ forall t,
         filter (fun e => (timeOf dayOf e =? t)%Z) l
         = filter (fun e => (timeOf dayOf e =? t)%Z) DATA.
Proof.
  apply (proj1 (proj2 (sortedEpisodes_by_date dayOf
                         [ep "1" "Wilco"; ep "2" "<unknown>"; ep "3" "Wilco"]))).
  repeat constructor; discriminate.
Defined.

Example example_sortedEpisodes :
  Load.sortedEpisodes dayOf [ep "1" "Wilco"; ep "2" "<unknown>"; ep "3" "Wilco"]
  = Js.InOrder [ep "3" "Wilco"; ep "2" "<unknown>"; ep "1" "Wilco"].
Proof. reflexivity. Qed.

(** ** More on the filtered list *)

Lemma prefix_iff a s :
  String.prefix a s = true <-> exists post, s = (a ++ post)%string.
Proof.
  revert s. induction a as [|c a IH]; intros s.
  - split; [|now destruct s]. intros _. now exists s.
  - destruct s as [|d s]; simpl.
    + split; [discriminate|]. intros (post & H). discriminate.
    + destruct (ascii_dec c d) as [->|Hne].
      * rewrite IH. split; intros (post & H); exists post.
        -- now rewrite H.
        -- now injection H.
      * split; [discriminate|]. intros (post & H). simpl in H. congruence.
Qed.

(** [includes] is the substring test. *)
Lemma includes_iff s sub :
  Js.includes s sub = true <-> exists pre post, s = (pre ++ sub ++ post)%string.
Proof.
  induction s as [|c s IH]; cbn [Js.includes].
  - rewrite orb_false_r, prefix_iff. split.
    + intros (post & H). now exists "", post.
    + intros ([|? ?] & post & H); [now exists post | discriminate].
  - rewrite orb_true_iff, prefix_iff, IH. split.
    + intros [(post & H) | (pre & post & H)].
      * now exists "", post.
      * exists (String c pre), post. simpl. now rewrite H.
    + intros ([|d pre] & post & H).
      * left. now exists post.
      * right. injection H as _ H. now exists pre, post.
Qed.

Lemma lowerUnit_idempotent c : Js.lowerUnit (Js.lowerUnit c) = Js.lowerUnit c.
Proof. destruct c as [[] [] [] [] [] [] [] []]; reflexivity. Qed.

Lemma toLowerCase_idempotent s : Js.toLowerCase (Js.toLowerCase s) = Js.toLowerCase s.
Proof.
  induction s as [|c s IH]; simpl; [reflexivity|].
  now rewrite lowerUnit_idempotent, IH.
Qed.

Lemma matches_empty e : matches "" e = true.
Proof. unfold matches. apply includes_iff. now exists "", (Js.toLowerCase (band e)). Qed.

Lemma firstOfEachId_Subsequence_filter (p : Episode -> bool) l : forall seen,
  Subsequence (firstOfEachId seen p l) (filter p l).
Proof.
  induction l as [|x l IH]; intros seen; cbn [firstOfEachId filter]; [constructor|].
  destruct (p x); cbn [andb].
  - destruct (negb (existsb (fun i => (i =? id x)%string) seen));
      [apply Subsequence_keep | apply Subsequence_skip]; apply IH.
  - apply IH.
Qed.

Lemma firstOfEachId_ext (p q : Episode -> bool) l :
  (forall e, p e = q e) ->
  forall seen, firstOfEachId seen p l = firstOfEachId seen q l.
Proof.
  intros H. induction l as [|x l IH]; intros seen; cbn [firstOfEachId]; [reflexivity|].
  now rewrite H, IH.
Qed.

(** X10: the empty search term leaves the search out: the first revision
    keeps every episode, and the second keeps what the removal of the
    repeated ids keeps of the whole list. *)
Theorem filteredEpisodes_empty_term (episodes : list Episode) :
  App.filteredEpisodes episodes "" = episodes
  /\ Revised.filteredEpisodes episodes ""
     = firstOfEachId [] (fun _ => true) episodes.
Proof.
  split.
  - apply (filter_all (matches "")). intros e _. apply matches_empty.
  - rewrite filteredEpisodes_firstOfEachId. apply firstOfEachId_ext.
    apply matches_empty.
Qed.

(** X11: the search does not tell the case of the letters A to Z: a search
    term and its lower-case form keep the same episodes, in both
    revisions. *)
Theorem filteredEpisodes_case (episodes : list Episode) (searchTerm : string) :
  App.filteredEpisodes episodes (Js.toLowerCase searchTerm)
  = App.filteredEpisodes episodes searchTerm
  /\ Revised.filteredEpisodes episodes (Js.toLowerCase searchTerm)
     = Revised.filteredEpisodes episodes searchTerm.
Proof.
  assert (H : forall e, matches (Js.toLowerCase searchTerm) e = matches searchTerm e).
  { intros e. unfold matches. now rewrite toLowerCase_idempotent. }
  split.
  - apply (filter_ext _ _ H).
  - rewrite !filteredEpisodes_firstOfEachId. now apply firstOfEachId_ext.
Qed.

(** X12: what the second revision keeps is part of what the first keeps, in
    the same order. *)
Theorem filteredEpisodes_revised_within (episodes : list Episode) (searchTerm : string) :
  Subsequence (Revised.filteredEpisodes episodes searchTerm)
              (App.filteredEpisodes episodes searchTerm).
Proof.
  rewrite filteredEpisodes_firstOfEachId.
  apply (firstOfEachId_Subsequence_filter (matches searchTerm)).
Qed.

Lemma firstOfEachId_filter (p : Episode -> bool) l : forall seen,
  NoDup (map id l) ->
  (forall e, In e l -> ~ In (id e) seen) ->
  firstOfEachId seen p l = filter p l.
Proof.
  induction l as [|x l IH]; intros seen Hnd Hseen; cbn [firstOfEachId filter];
    [reflexivity|].
  cbn [map] in Hnd. inversion Hnd as [|? ? Hx Hnd']; subst.
  assert (He : existsb (fun i => (i =? id x)%string) seen = false).
  { destruct (existsb _ seen) eqn:He; [|reflexivity].
    apply existsb_exists in He as (i & Hi & Heq). apply String.eqb_eq in Heq. subst i.
    destruct (Hseen x (in_eq x l) Hi). }
  rewrite He. cbn [negb]. rewrite andb_true_r.
  rewrite IH; [reflexivity | assumption |].
  intros e He' Hin. apply in_app_or in Hin as [Hin | [Heq | []]].
  - apply (Hseen e); [now right | assumption].
  - apply Hx. rewrite Heq. now apply in_map.
Qed.

(** X13: when the ids of the episodes are pairwise distinct the two
    revisions keep the same episodes, and the empty search term keeps them
    all. *)
Theorem filteredEpisodes_distinct_ids (episodes : list Episode) (searchTerm : string)
    (H : NoDup (map id episodes)) :
  Revised.filteredEpisodes episodes searchTerm
  = App.filteredEpisodes episodes searchTerm
  /\ Revised.filteredEpisodes episodes "" = episodes.
Proof.
  assert (Hf : forall t, Revised.filteredEpisodes episodes t
                         = App.filteredEpisodes episodes t).
  { intros t. rewrite filteredEpisodes_firstOfEachId.
    apply firstOfEachId_filter; [exact H | intros e _ []]. }
  split; [apply Hf|]. rewrite Hf.
  apply (filter_all (matches "")). intros e _. apply matches_empty.
Qed.

Lemma filteredEpisodes_distinct_ids_witness :
  let episodes := [ep "1" "Wilco"; ep "2" "Beck"; ep "3" "WILCO"] in
  Revised.filteredEpisodes episodes "wil" = App.filteredEpisodes episodes "wil"
  /\ Revised.filteredEpisodes episodes "" = episodes.
Proof.
  apply (filteredEpisodes_distinct_ids
           [ep "1" "Wilco"; ep "2" "Beck"; ep "3" "WILCO"] "wil").
  repeat constructor; simpl; intuition discriminate.
Defined.

(** ** The groups and the list of the second revision *)

Lemma length_bucket b l :
  length (bucket b l) =
  mentions b l
  + (if (b =? "Unknown")%string
     then length (filter (fun e => negb (known (band e))) l) else 0).
Proof.
  unfold bucket, mentions, knownEpisodes. rewrite filter_twice.
  induction l as [|e l IH]; cbn [filter length].
  - now destruct (b =? "Unknown")%string.
  - unfold bucketOf at 1. destruct (known (band e)); cbn [andb negb].
    + destruct (band e =? b)%string; cbn [length]; rewrite IH;
        destruct (b =? "Unknown")%string; lia.
    + rewrite (String.eqb_sym "Unknown" b).
      destruct (b =? "Unknown")%string; cbn [length]; rewrite IH; lia.
Qed.

(** The effect returns exactly on the lists where no known band has the
    name of a member of [Object.prototype]. *)
Lemma groupByBand_returns_plain l groups :
  Revised.groupByBand l = Js.Returned groups -> plainNames l = true.
Proof.
  intros H. destruct (plainNames l) eqn:Hp; [reflexivity|].
  rewrite (groupByBand_throws l Hp) in H. discriminate.
Qed.

Lemma plainNames_mentions l b :
  plainNames l = true -> Js.inherited b = true -> mentions b l = 0.
Proof.
  intros Hp Hi. destruct (mentions b l) as [|n] eqn:Hm; [reflexivity|].
  assert (Hpos : 0 < mentions b l) by lia.
  apply mentions_pos_iff, In_knownBands in Hpos.
  rewrite (plainNames_band l b Hp Hpos) in Hi. discriminate.
Qed.

(** X14: the group [groupByBand] files under a name holds as many episodes
    as the count object of the same list counts for that name; only the
    group named Unknown holds, besides, the episodes without a known
    band. *)
Theorem group_size (episodes : list Episode)
    (groups : Js.Object (list Episode)) (b : string) (es : list Episode)
    (Hgroups : Revised.groupByBand episodes = Js.Returned groups)
    (Hes : Js.get b groups = Js.Own es) :
  length es =
  countUnder (Js.get b (App.bandCounts episodes))
  + (if (b =? "Unknown")%string
     then length (filter (fun e => negb (known (band e))) episodes) else 0).
Proof.
  pose proof (groupByBand_returns_plain _ _ Hgroups) as Hplain.
  destruct (groupByBand_getOwn episodes Hplain) as (groups' & Hret & _ & Hget).
  rewrite Hret in Hgroups. injection Hgroups as <-.
  apply get_Own in Hes. rewrite Hget in Hes.
  rewrite countUnder_bandCounts.
  assert (Hm : (if Js.inherited b then 0 else mentions b episodes)
               = mentions b episodes).
  { destruct (Js.inherited b) eqn:Hi; [|reflexivity].
    symmetry. now apply plainNames_mentions. }
  rewrite Hm, <- length_bucket.
  destruct (bucket b episodes); [discriminate|]. now injection Hes as <-.
Qed.

Lemma group_size_witness :
  let episodes :=
    [ep "1" "Wilco"; ep "2" "<unknown>"; ep "3" "Unknown"; ep "4" ""] in
  length [ep "2" "<unknown>"; ep "3" "Unknown"; ep "4" ""] =
  countUnder (Js.get "Unknown" (App.bandCounts episodes))
  + (if ("Unknown" =? "Unknown")%string
     then length (filter (fun e => negb (known (band e))) episodes) else 0).
Proof.
  apply (group_size
           [ep "1" "Wilco"; ep "2" "<unknown>"; ep "3" "Unknown"; ep "4" ""]
           [("Wilco", [ep "1" "Wilco"]);
            ("Unknown", [ep "2" "<unknown>"; ep "3" "Unknown"; ep "4" ""])]
           "Unknown").
  - reflexivity.
  - reflexivity.
Defined.


Section MapM.
Context {A B : Type} (f : A -> Js.Outcome B) (g : A -> B).

Lemma mapM_all l :
  (forall x, In x l -> f x = Js.Returned (g x)) ->
  Js.mapM f l = Js.Returned (map g l).
Proof.
  induction l as [|x l IH]; intros H; [reflexivity|].
  cbn [Js.mapM map]. rewrite (H x (in_eq x l)). cbn [Js.bind].
  rewrite IH by (intros; apply H; now right). reflexivity.
Qed.

Lemma mapM_throws l x :
  In x l -> f x = Js.TypeError -> Js.mapM f l = Js.TypeError.
Proof.
  induction l as [|y l IH]; intros Hin Hx; [destruct Hin|].
  cbn [Js.mapM]. destruct Hin as [->|Hin].
  - now rewrite Hx.
  - destruct (f y); [|reflexivity]. cbn [Js.bind]. now rewrite (IH Hin Hx).
Qed.

Lemma mapMArranged_all s :
  (forall x, In x (Js.items s) -> f x = Js.Returned (g x)) ->
  Js.mapMArranged f s = Js.Returned (Js.mapArranged g s).
Proof.
  intros H. destruct s as [l|l]; cbn [Js.mapMArranged Js.mapArranged];
    now rewrite (mapM_all l H).
Qed.

Lemma mapMArranged_throws s x :
  In x (Js.items s) -> f x = Js.TypeError -> Js.mapMArranged f s = Js.TypeError.
Proof.
  intros Hin Hx. destruct s as [l|l]; cbn [Js.mapMArranged];
    now rewrite (mapM_throws l x Hin Hx).
Qed.

End MapM.

Lemma mapM_pointwise {A B : Type} (f f' : A -> Js.Outcome B) l :
  (forall x, f x = f' x) -> Js.mapM f l = Js.mapM f' l.
Proof.
  intros H. induction l as [|x l IH]; [reflexivity|].
  cbn [Js.mapM]. now rewrite H, IH.
Qed.

Lemma mapMArranged_pointwise {A B : Type} (f f' : A -> Js.Outcome B) s :
  (forall x, f x = f' x) -> Js.mapMArranged f s = Js.mapMArranged f' s.
Proof.
  intros H. destruct s as [l|l]; cbn [Js.mapMArranged];
    now rewrite (mapM_pointwise f f' l H).
Qed.

Lemma In_sortedBands localeCompare sortBy episodes entry :
  In entry (Js.items (App.sortedBands localeCompare sortBy episodes)) <->
  In (fst entry) (keyedBands episodes)
  /\ snd entry = held (fst entry) (mentions (fst entry) episodes).
Proof.
  destruct entry as [b c]. cbn [fst snd]. rewrite In_keyedBands. split.
  - intros Hin. apply (Permutation_in _ (sort_perm _ _)) in Hin.
    apply bandCounts_entry in Hin. tauto.
  - intros [[Hk Hpos] ->].
    apply (Permutation_in _ (Permutation_sym (sort_perm _ _))).
    now apply bandCounts_entry.
Qed.

Lemma plainNames_filtered episodes searchTerm :
  plainNames episodes = true ->
  plainNames (Revised.filteredEpisodes episodes searchTerm) = true.
Proof.
  intros H. apply plainNames_spec. intros e He Hk.
  apply (proj1 (plainNames_spec episodes) H); [|exact Hk].
  rewrite filteredEpisodes_firstOfEachId in He.
  apply firstOfEachId_In in He as (l1 & l2 & -> & _). apply in_elt.
Qed.

(** The lookup of a band in the groups of the filtered list. *)
Lemma rendered_bands_mapM localeCompare sortBy episodes searchTerm :
  sortBy <> by_date ->
  plainNames episodes = true ->
  exists groups,
    (forall k, Js.getOwn k groups =
               match bucket k (Revised.filteredEpisodes episodes searchTerm) with
               | [] => None
               | b => Some b
               end)
    /\ Revised.rendered localeCompare sortBy episodes searchTerm =
       Js.mapMArranged
         (fun entry : string * Js.Value =>
            Js.bind (Revised.listed (fst entry) groups) (fun listed =>
            Js.Returned (BandItem (fst entry) (snd entry) listed)))
         (App.sortedBands localeCompare sortBy episodes).
Proof.
  intros Hmode Hplain.
  destruct (groupByBand_getOwn (Revised.filteredEpisodes episodes searchTerm)
              (plainNames_filtered _ searchTerm Hplain))
    as (groups & Hret & _ & Hget).
  exists groups. split; [exact Hget|].
  unfold Revised.rendered, Revised.bandGroups.
  destruct sortBy; [| |contradiction]; rewrite Hret;
    apply mapMArranged_pointwise; intros [band count]; reflexivity.
Qed.

Lemma listed_plain b groups :
  Js.inherited b = false ->
  Revised.listed b groups = JsConv.defined (Js.getOwn b groups).
Proof.
  intros H. unfold Revised.listed. rewrite (get_plain _ _ H).
  now destruct (Js.getOwn b groups).
Qed.

Lemma rendered_bands_returns localeCompare sortBy episodes searchTerm :
  sortBy <> by_date ->
  plainNames episodes = true ->
  (forall b, In b (knownBands episodes) ->
             bucket b (Revised.filteredEpisodes episodes searchTerm) <> []) ->
  Revised.rendered localeCompare sortBy episodes searchTerm =
  Js.Returned
    (Js.mapArranged (bandItem (Revised.filteredEpisodes episodes searchTerm))
       (App.sortedBands localeCompare sortBy episodes)).
Proof.
  intros Hmode Hplain Hall.
  destruct (rendered_bands_mapM localeCompare sortBy episodes searchTerm Hmode Hplain)
    as (groups & Hget & ->).
  apply mapMArranged_all. intros entry Hin.
  apply In_sortedBands in Hin as [Hin _].
  rewrite (plainNames_keyedBands _ Hplain) in Hin.
  rewrite (listed_plain _ _ (plainNames_band _ _ Hplain Hin)).
  specialize (Hall _ Hin).
  rewrite Hget. unfold bandItem.
  destruct (bucket (fst entry) (Revised.filteredEpisodes episodes searchTerm));
    [contradiction | reflexivity].
Qed.

Lemma rendered_bands_throws localeCompare sortBy episodes searchTerm b :
  sortBy <> by_date ->
  plainNames episodes = true ->
  In b (knownBands episodes) ->
  bucket b (Revised.filteredEpisodes episodes searchTerm) = [] ->
  Revised.rendered localeCompare sortBy episodes searchTerm = Js.TypeError.
Proof.
  intros Hmode Hplain Hin Hempty.
  destruct (rendered_bands_mapM localeCompare sortBy episodes searchTerm Hmode Hplain)
    as (groups & Hget & ->).
  apply mapMArranged_throws with (x := (b, held b (mentions b episodes))).
  - apply In_sortedBands. cbn [fst snd]. split; [|reflexivity].
    now rewrite (plainNames_keyedBands _ Hplain).
  - cbn [fst snd]. rewrite (listed_plain _ _ (plainNames_band _ _ Hplain Hin)).
    now rewrite Hget, Hempty.
Qed.

(** X15: when no known band has the name of a member of
    [Object.prototype], in band and count mode the list of the second
    revision, once the effect has stored the groups of the filtered list,
    throws exactly when some known band of the episodes has no episode
    under its name in the filtered list; otherwise it shows the sorted
    bands, each with its count and the filtered episodes of its name. *)
Theorem rendered_bands (localeCompare : string -> string -> Z)
    (sortBy : SortBy) (episodes : list Episode) (searchTerm : string)
    (Hmode : sortBy <> by_date)
    (Hplain : plainNames episodes = true) :
  (Revised.rendered localeCompare sortBy episodes searchTerm = Js.TypeError <->
   exists b,
     In b (knownBands episodes)
     /\ bucket b (Revised.filteredEpisodes episodes searchTerm) = [])
  /\ ((forall b, In b (knownBands episodes) ->
                 bucket b (Revised.filteredEpisodes episodes searchTerm) <> []) ->
      Revised.rendered localeCompare sortBy episodes searchTerm =
      Js.Returned
        (Js.mapArranged (bandItem (Revised.filteredEpisodes episodes searchTerm))
           (App.sortedBands localeCompare sortBy episodes))).
Proof.
  split; [|now apply rendered_bands_returns].
  split.
  - intros Hthrow.
    set (filtered := Revised.filteredEpisodes episodes searchTerm) in *.
    destruct (existsb
                (fun b => match bucket b filtered with [] => true | _ :: _ => false end)
                (knownBands episodes)) eqn:He.
    + apply existsb_exists in He as (b & Hin & Hb). exists b. split; [exact Hin|].
      now destruct (bucket b filtered).
    + rewrite rendered_bands_returns in Hthrow;
        [discriminate | exact Hmode | exact Hplain |].
      intros b Hin Hb.
      assert (Ht : existsb
                     (fun b => match bucket b filtered with [] => true | _ :: _ => false end)
                     (knownBands episodes) = true).
      { apply existsb_exists. exists b. fold filtered in Hb. now rewrite Hb. }
      congruence.
  - intros (b & Hin & Hb). now apply rendered_bands_throws with (b := b).
Qed.

Lemma rendered_bands_witness :
  (Revised.rendered codeUnitCompare by_band [ep "1" "Wilco"; ep "2" "Beck"] "wil"
   = Js.TypeError <->
   exists b,
     In b (knownBands [ep "1" "Wilco"; ep "2" "Beck"])
     /\ bucket b (Revised.filteredEpisodes [ep "1" "Wilco"; ep "2" "Beck"] "wil") = [])
  /\ ((forall b, In b (knownBands [ep "1" "Wilco"; ep "2" "Beck"]) ->
         bucket b (Revised.filteredEpisodes [ep "1" "Wilco"; ep "2" "Beck"] "wil") <> []) ->
      Revised.rendered codeUnitCompare by_band [ep "1" "Wilco"; ep "2" "Beck"] "wil" =
      Js.Returned
        (Js.mapArranged
           (bandItem (Revised.filteredEpisodes [ep "1" "Wilco"; ep "2" "Beck"] "wil"))
           (App.sortedBands codeUnitCompare by_band [ep "1" "Wilco"; ep "2" "Beck"]))).
Proof.
  apply (rendered_bands codeUnitCompare by_band [ep "1" "Wilco"; ep "2" "Beck"] "wil").
  - discriminate.
  - reflexivity.
Defined.




(** ** The list of the first revision *)


